(** * wordgrid.py: a shallow embedding and its verified properties

    The program suggests dictionary words for a letter grid.  The grid is a
    numpy array of one-character strings; the pipeline derives the letter
    budget ([lettercount]) and the set of three-letter paths
    ([get_all_threegrams]) and filters a word list with them.

    Python values are modelled as follows.
    - [int] is [Z]; [str] is [string], its characters the code points below
      256; a character is a one-character string, as in Python.
    - A 2-d numpy array of dtype [<U1] is a list of rows, each a list of
      strings; indexing follows numpy (negative indices wrap once, anything
      else out of range raises [IndexError]); storing a string truncates it
      to its first character.
    - A [dict] / [Counter] is a [gmap], a [set] is a [gset].
    - Exceptions are the [Raise] branch of [result]; what [print] writes is
      returned next to the new state. *)

From Stdlib Require Import ZArith String Ascii.
From stdpp Require Import base list gmap sets strings.

Open Scope Z_scope.

(** ** Exceptions *)

Inductive exn := IndexError | ValueError | FileNotFoundError | EOFError.

Inductive result (A : Type) :=
  | Ok (a : A)
  | Raise (e : exn).
Arguments Ok {A} a.
Arguments Raise {A} e.

#[global] Instance result_ret : MRet result := λ A, Ok.
#[global] Instance result_bind : MBind result := λ A B f m,
  match m with Ok a => f a | Raise e => Raise e end.

Definition is_Ok {A} (m : result A) : Prop := ∃ a, m = Ok a.

(** ** Python strings *)

Definition len (s : string) : Z := Z.of_nat (String.length s).

(** [list(s)] and iteration over a [str]: its one-character strings. *)
Fixpoint chars (s : string) : list string :=
  match s with
  | EmptyString => []
  | String a s' => String a EmptyString :: chars s'
  end.

Fixpoint str_take (n : nat) (s : string) : string :=
  match n, s with
  | S n', String a s' => String a (str_take n' s')
  | _, _ => EmptyString
  end.

Fixpoint str_drop (n : nat) (s : string) : string :=
  match n, s with
  | S n', String _ s' => str_drop n' s'
  | _, _ => s
  end.

(** A slice bound is clamped the way Python does it for step 1. *)
Definition slice_bound (n x : Z) : Z :=
  if bool_decide (x < 0) then Z.max (x + n) 0 else Z.min x n.

(** [s[lo:hi]] *)
Definition py_slice (s : string) (lo hi : Z) : string :=
  let l := slice_bound (len s) lo in
  let h := slice_bound (len s) hi in
  str_take (Z.to_nat (h - l)) (str_drop (Z.to_nat l) s).

(** [range(k)] *)
Definition range (k : Z) : list Z := Z.of_nat <$> seq 0 (Z.to_nat k).

(** [str.isspace] on the code points below 256. *)
Definition py_isspace (a : ascii) : bool :=
  let n := nat_of_ascii a in
  ((9 <=? n) && (n <=? 13) || (28 <=? n) && (n <=? 32)
   || (n =? 133) || (n =? 160))%nat.

Fixpoint lstrip (s : string) : string :=
  match s with
  | String a s' => if py_isspace a then lstrip s' else s
  | EmptyString => EmptyString
  end.

Fixpoint rstrip (s : string) : string :=
  match s with
  | String a s' =>
      match rstrip s' with
      | EmptyString => if py_isspace a then EmptyString else String a EmptyString
      | t => String a t
      end
  | EmptyString => EmptyString
  end.

(** [s.strip()] removes leading and trailing whitespace. *)
Definition strip (s : string) : string := rstrip (lstrip s).

(** [collections.Counter(iterable)] *)
Definition Counter (l : list string) : gmap string Z :=
  foldl (λ m x, <[x := default 0 (m !! x) + 1]> m) ∅ l.

(** Reading a [Counter] never fails: a missing key counts 0. *)
Definition count_of (m : gmap string Z) (k : string) : Z := default 0 (m !! k).

(** ** The numpy array *)

Abbreviation ndarray := (list (list string)).

(** What [np.empty] leaves in the cells is whatever the memory held: [junk]
    stands for it. *)
Definition np_empty (junk : nat → nat → string) (r c : nat) : ndarray :=
  (λ i, (λ j, junk i j) <$> seq 0 c) <$> seq 0 r.

Definition np_index (size : nat) (i : Z) : result nat :=
  if bool_decide (0 ≤ i < Z.of_nat size) then Ok (Z.to_nat i)
  else if bool_decide (- Z.of_nat size ≤ i < 0) then Ok (Z.to_nat (i + Z.of_nat size))
  else Raise IndexError.

(** Storing into a [<U1] cell keeps the first character only. *)
Definition u1 (s : string) : string :=
  match s with
  | String a _ => String a EmptyString
  | EmptyString => EmptyString
  end.

(** [a[row, col]] *)
Definition np_getitem (a : ndarray) (row col : Z) : result string :=
  r ← np_index (length a) row;
  match a !! r with
  | Some line =>
      c ← np_index (length line) col;
      match line !! c with
      | Some x => Ok x
      | None => Raise IndexError
      end
  | None => Raise IndexError
  end.

(** [a[row, col] = v] *)
Definition np_setitem (a : ndarray) (row col : Z) (v : string) : result ndarray :=
  r ← np_index (length a) row;
  match a !! r with
  | Some line =>
      c ← np_index (length line) col;
      Ok (<[r := <[c := u1 v]> line]> a)
  | None => Raise IndexError
  end.

(** [a[row, :] = vals]: the values must have the row's length, or be a
    single value, which numpy broadcasts over the row. *)
Definition np_setrow (a : ndarray) (row : Z) (vals : list string) : result ndarray :=
  r ← np_index (length a) row;
  match a !! r with
  | Some line =>
      if bool_decide (length vals = length line) then Ok (<[r := u1 <$> vals]> a)
      else match vals with
           | [v] => Ok (<[r := (λ _, u1 v) <$> line]> a)
           | _ => Raise ValueError
           end
  | None => Raise IndexError
  end.

(** [a.flatten()] *)
Definition flatten (a : ndarray) : list string := concat a.

(** ** class WordGrid *)

Record WordGrid := mkWordGrid {
  grid : ndarray;
  rows : Z;
  cols : Z
}.

Definition set_grid (g : WordGrid) (a : ndarray) : WordGrid :=
  {| grid := a; rows := rows g; cols := cols g |}.

(** [WordGrid(m, n)]: the array is allocated with [shape=(n, n)]. *)
Definition WordGrid_init (junk : nat → nat → string) (m n : Z) : result WordGrid :=
  if bool_decide (n < 0) then Raise ValueError
  else Ok {| grid := np_empty junk (Z.to_nat n) (Z.to_nat n); rows := m; cols := n |}.

Definition is_valid_index (g : WordGrid) (row col : Z) : bool :=
  bool_decide (0 ≤ row < rows g ∧ 0 ≤ col < cols g).

(** The [try] swallows every exception and prints. *)
Definition update_grid_onefield (g : WordGrid) (row col : Z) (letter : string)
  : WordGrid * list string :=
  match np_setitem (grid g) row col letter with
  | Ok a => (set_grid g a, [])
  | Raise _ => (g, ["it should be 1 letter"%string])
  end.

Definition update_gridline_from_string (g : WordGrid) (row : Z) (s : string)
  : result (WordGrid * list string) :=
  if bool_decide (len s = rows g) then
    a ← np_setrow (grid g) row (chars s);
    Ok (set_grid g a, [])
  else Ok (g, ["Your string of letters doesn't really fit into the grid"%string]).

Definition update_gridline_from_list (g : WordGrid) (row : Z) (lst : list string)
  : result (WordGrid * list string) :=
  if bool_decide (Z.of_nat (length lst) = rows g) then
    a ← np_setrow (grid g) row lst;
    Ok (set_grid g a, [])
  else Ok (g, ["Your list of letters doesn't really fit into the grid"%string]).

Definition get_element (g : WordGrid) (row col : Z) : result string :=
  np_getitem (grid g) row col.

Definition lettercount (g : WordGrid) : gmap string Z :=
  Counter (flatten (grid g)).

(** The two nested [for] loops over [(-1, 0, 1)], appending to a list. *)
Definition get_neighbours_index (g : WordGrid) (row col : Z) : list (Z * Z) :=
  i ← [-1; 0; 1];
  j ← [-1; 0; 1];
  if is_valid_index g (row + i) (col + j) && negb (bool_decide (i = 0 ∧ j = 0))
  then [(row + i, col + j)]
  else [].

(** The dictionary of the first loop: every neighbour of the start is a key,
    its value the list of its own neighbours, the start left out. *)
Definition neighbour_dict (g : WordGrid) (row col : Z) : gmap (Z * Z) (list (Z * Z)) :=
  foldl (λ d neighbour,
           let nextneighbours := get_neighbours_index g neighbour.1 neighbour.2 in
           <[neighbour := filter (λ nextneighbour, nextneighbour ≠ (row, col)) nextneighbours]> d)
        ∅ (get_neighbours_index g row col).

(** The body of the second loop, for one entry of the dictionary. *)
Definition grams_of_entry (g : WordGrid) (row col : Z) (entry : (Z * Z) * list (Z * Z))
  : result (list string) :=
  let '(key, itemlist) := entry in
  e0 ← get_element g row col;
  e1 ← get_element g key.1 key.2;
  let gram := e0 +:+ e1 in
  mapM (λ item : Z * Z, e2 ← get_element g item.1 item.2; Ok (gram +:+ e2)) itemlist.

(** The entries are visited in the order [map_to_list] gives, which need not
    be Python's insertion order; the result is a set and every exception
    raised here is an [IndexError], so the order is not observable. *)
Definition get_two_neighbours (g : WordGrid) (row col : Z) : result (gset string) :=
  threegrams ← mapM (grams_of_entry g row col) (map_to_list (neighbour_dict g row col));
  Ok (list_to_set (concat threegrams)).

Definition get_all_threegrams (g : WordGrid) : result (gset string) :=
  allgrams ← mapM (λ row,
                mapM (λ col, grams ← get_two_neighbours g row col; Ok (elements grams))
                     (range (cols g)))
              (range (rows g));
  Ok (list_to_set (concat (concat allgrams))).

(** ** The module-level checks *)

(** The loop returns [False] at the first miss and [True] otherwise. *)
Definition check_ngrams_in_word (word : string) (ngramset : gset string) (n : Z) : bool :=
  forallb (λ i, bool_decide (py_slice word i (i + n) ∈ ngramset))
          (range (len word - n + 1)).

(** The loop runs over the keys of the word's own counter. *)
Definition check_lettercount_in_word (word : string) (lettercount : gmap string Z) : bool :=
  let lettercount_word := Counter (chars word) in
  forallb (λ letter,
             if bool_decide (lettercount !! letter = None) then false
             else negb (bool_decide (count_of lettercount_word letter > count_of lettercount letter)))
          (map_to_list lettercount_word).*1.

(** The [for line in fin] loop of [filter_wordlistfile]. *)
Definition filter_lines (lettercount : gmap string Z) (threegrams : gset string)
    (fin : list string) : list string :=
  foldl (λ possible_words line,
           let word := strip line in
           if bool_decide (len word > 3) && check_lettercount_in_word word lettercount
           then if check_ngrams_in_word word threegrams 3
                then possible_words ++ [word]
                else possible_words
           else possible_words)
        [] fin.

(** [fs] is the file system: the lines of a file, or nothing when [open]
    fails. *)
Definition filter_wordlistfile (fs : string → option (list string))
    (filename : string) (g : WordGrid) : result (list string) :=
  let lettercount := lettercount g in
  threegrams ← get_all_threegrams g;
  match fs filename with
  | Some fin => Ok (filter_lines lettercount threegrams fin)
  | None => Raise FileNotFoundError
  end.

(** ** Filling a grid *)

(** [fill_grid_from_cmdline]: one [input()] line per logical row; [stdin]
    holds the lines still to be read.  The prompts it prints are left out. *)
Definition fill_grid_from_cmdline (stdin : list string) (g : WordGrid) : result WordGrid :=
  foldl (λ (acc : result (WordGrid * list string)) i,
           '(g, stdin) ← acc;
           match stdin with
           | line :: stdin' =>
               '(g', _) ← update_gridline_from_string g i line;
               Ok (g', stdin')
           | [] => Raise EOFError
           end)
        (Ok (g, stdin)) (range (rows g))
  ≫= λ '(g, _), Ok g.

(** [str.lower] on the code points below 256. *)
Definition lower_ascii (a : ascii) : ascii :=
  let n := nat_of_ascii a in
  if ((65 <=? n) && (n <=? 90) || (192 <=? n) && (n <=? 214)
      || (216 <=? n) && (n <=? 222))%nat
  then ascii_of_nat (n + 32) else a.

Fixpoint lower (s : string) : string :=
  match s with
  | String a s' => String (lower_ascii a) (lower s')
  | EmptyString => EmptyString
  end.

(** ** The helpers around the grid *)

(** [x in s] on strings: [x] occurs in [s] as a substring. *)
Fixpoint str_contains (x s : string) {struct s} : bool :=
  if String.prefix x s then true
  else match s with
       | String _ s' => str_contains x s'
       | EmptyString => false
       end.

Definition is_letter_eng (char : string) : bool :=
  str_contains (lower char) "abcdefghijklmnopqrstuvwxyz".

(** Each [if] may overwrite the suffix chosen so far. *)
Definition ordinalending (n : Z) : string :=
  let suff := "th"%string in
  let suff := if bool_decide (n mod 10 = 1 ∧ n mod 100 ≠ 11) then "st"%string else suff in
  let suff := if bool_decide (n mod 10 = 2 ∧ n mod 100 ≠ 12) then "nd"%string else suff in
  let suff := if bool_decide (n mod 10 = 3 ∧ n mod 100 ≠ 13) then "rd"%string else suff in
  suff.

(** What [read_posint_from_cmdline_withct] writes: the prompt of [input] and
    its four messages, the default value kept as a number. *)
Inductive printed :=
  | Prompt (text : string)
  | StopNow
  | WillUse (defvalue : Z)
  | WholeNumber
  | NotGood.

(** [int(input(text))]: [stdin] holds the lines still to be read and [int]
    is Python's conversion of a line, [None] when it raises.  At the end of
    the input [input] raises; the bare [except] of the caller takes both
    failures alike. *)
Definition int_input (int : string → option Z) (stdin : list string)
  : option Z * list string :=
  match stdin with
  | line :: stdin' => (int line, stdin')
  | [] => (None, [])
  end.

(** The [while True] loop, one unfolding per unit of [fuel]; [None] when the
    fuel runs out. *)
Fixpoint read_posint_loop (int : string → option Z) (fuel : nat)
    (text : string) (maxct defvalue ct : Z) (stdin : list string)
    (out : list printed) : option (Z * list string * list printed) :=
  match fuel with
  | O => None
  | S fuel' =>
      let ct := ct + 1 in
      let out := out ++ [Prompt text] in
      match int_input int stdin with
      | (None, stdin') =>
          if bool_decide (ct >= maxct)
          then Some (defvalue, stdin', out ++ [StopNow; WillUse defvalue])
          else read_posint_loop int fuel' text maxct defvalue ct stdin'
                 (out ++ [WholeNumber])
      | (Some number, stdin') =>
          if bool_decide (number < 1)
          then if bool_decide (ct >= maxct)
               then Some (defvalue, stdin', out ++ [StopNow; WillUse defvalue])
               else read_posint_loop int fuel' text maxct defvalue ct stdin'
                      (out ++ [NotGood])
          else Some (number, stdin', out)
      end
  end.

(** The loop runs at least once and stops at the latest when [ct] reaches
    [maxct]: that many units of fuel are enough. *)
Definition read_posint_from_cmdline_withct (int : string → option Z)
    (text : string) (maxct defvalue : Z) (stdin : list string)
  : option (Z * list string * list printed) :=
  read_posint_loop int (Z.to_nat (Z.max 1 maxct)) text maxct defvalue 0 stdin [].


(** ** Specification-side notions *)

(** The designated gap marker of the command-line prompt: a space. *)
Definition gap : string := " ".

(** An array of [r] rows of [c] cells each. *)
Definition shape (a : ndarray) (r c : nat) : Prop :=
  length a = r ∧ Forall (λ line, length line = c) a.

(** A grid as the data model has it: a [rows] by [cols] array, every cell
    holding one character. *)
Definition fully_constructed (g : WordGrid) : Prop :=
  0 < rows g ∧ 0 < cols g
  ∧ shape (grid g) (Z.to_nat (rows g)) (Z.to_nat (cols g))
  ∧ Forall (Forall (λ x, String.length x = 1%nat)) (grid g).

#[global] Instance shape_dec a r c : Decision (shape a r c).
Proof. unfold shape. apply _. Defined.

#[global] Instance fully_constructed_dec g : Decision (fully_constructed g).
Proof. unfold fully_constructed. apply _. Defined.

(** How often [k] occurs in a list. *)
Definition occ (k : string) (l : list string) : Z :=
  Z.of_nat (length (filter (λ x, x = k) l)).

(** The letter multiset of the word fits the budget. *)
Definition fits_budget (word : string) (budget : gmap string Z) : Prop :=
  ∀ letter, letter ∈ chars word →
    ∃ b, budget !! letter = Some b ∧ occ letter (chars word) ≤ b.

(** Every length-[n] substring of the word is in the set. *)
Definition ngrams_within (word : string) (ngramset : gset string) (n : Z) : Prop :=
  ∀ i, 0 ≤ i < len word - n + 1 → py_slice word i (i + n) ∈ ngramset.

(** Pointwise order on budgets, a missing key counting 0. *)
Definition budget_le (B B' : gmap string Z) : Prop :=
  ∀ k, count_of B k ≤ count_of B' k.

(** A word the filter keeps. *)
Definition candidate (lettercount : gmap string Z) (threegrams : gset string)
    (word : string) : Prop :=
  len word > 3 ∧ fits_budget word lettercount ∧ ngrams_within word threegrams 3.

(** The number of cells that hold [c] and are not the gap marker. *)
Definition nongap_count (g : WordGrid) (c : string) : Z :=
  Z.of_nat (length (filter (λ x, x ≠ gap ∧ x = c) (flatten (grid g)))).

(** Chebyshev distance between two cells. *)
Definition chebyshev (p q : Z * Z) : Z :=
  Z.max (Z.abs (p.1 - q.1)) (Z.abs (p.2 - q.2)).

(** A coordinate on the first or the last line of its axis. *)
Definition on_border (size x : Z) : Prop := x = 0 ∨ x = size - 1.

(** Three neighbours in a corner, five on an edge, eight inside. *)
Definition neighbour_count (g : WordGrid) (row col : Z) : nat :=
  match bool_decide (on_border (rows g) row), bool_decide (on_border (cols g) col) with
  | true, true => 3
  | true, false | false, true => 5
  | false, false => 8
  end.

(** One candidate of the double loop: kept when it is a valid index. *)
Definition cell (g : WordGrid) (row col : Z) : list (Z * Z) :=
  if is_valid_index g row col then [(row, col)] else [].

(** A path of two steps from (r, c) that does not step back, with the
    letters read along it. *)
Definition two_step_path (g : WordGrid) (r c : Z) (n1 n2 : Z * Z) (e0 e1 e2 : string) : Prop :=
  n1 ∈ get_neighbours_index g r c
  ∧ n2 ∈ get_neighbours_index g n1.1 n1.2
  ∧ n2 ≠ (r, c)
  ∧ get_element g r c = Ok e0
  ∧ get_element g n1.1 n1.2 = Ok e1
  ∧ get_element g n2.1 n2.2 = Ok e2.

(** The array has at least [rows] lines of at least [cols] cells: every
    valid index is inside it. *)
Definition covers (g : WordGrid) : Prop :=
  rows g ≤ Z.of_nat (length (grid g))
  ∧ Forall (λ line, cols g ≤ Z.of_nat (length line)) (grid g).

(** The grid with every cell lower-cased. *)
Definition lower_grid (g : WordGrid) : WordGrid :=
  set_grid g (map (map lower) (grid g)).

(** ** Example grids *)

Definition nojunk : nat → nat → string := λ _ _, ""%string.

(** [WordGrid(n, n)] filled from the given lines. *)
Definition square_grid (n : Z) (lines : list string) : result WordGrid :=
  g ← WordGrid_init nojunk n n; fill_grid_from_cmdline lines g.

Definition grid_abcd : WordGrid :=
  {| grid := [["a"; "b"]; ["c"; "d"]]%string; rows := 2; cols := 2 |}.

Definition grid_ABCD : WordGrid :=
  {| grid := [["A"; "B"]; ["C"; "D"]]%string; rows := 2; cols := 2 |}.

Definition grid_gap : WordGrid :=
  {| grid := [[" "]]%string; rows := 1; cols := 1 |}.

(** One of the letters A-Z and a-z. *)
Definition ascii_letter (a : ascii) : Prop :=
  (65 ≤ nat_of_ascii a ≤ 90 ∨ 97 ≤ nat_of_ascii a ≤ 122)%nat.

(** A line that does not give a positive number. *)
Definition invalid_line (int : string → option Z) (line : string) : Prop :=
  match int line with
  | Some number => number < 1
  | None => True
  end.

(** Every cell holds at most one character, as the array's dtype has it. *)
Definition cells_u1 (a : ndarray) : Prop :=
  Forall (Forall (λ x, (String.length x ≤ 1)%nat)) a.

(** What the updates keep: the array's shape, its one-character cells and
    the two recorded sizes. *)
Definition same_frame (nr nc : nat) (g g' : WordGrid) : Prop :=
  shape (grid g') nr nc ∧ cells_u1 (grid g') ∧ rows g' = rows g ∧ cols g' = cols g.

(** One round of the loop of [fill_grid_from_cmdline]. *)
Definition fill_step (acc : result (WordGrid * list string)) (i : Z)
  : result (WordGrid * list string) :=
  '(g, stdin) ← acc;
  match stdin with
  | line :: stdin' =>
      '(g', _) ← update_gridline_from_string g i line;
      Ok (g', stdin')
  | [] => Raise EOFError
  end.

(** The sum of all the counts of a budget. *)
Definition budget_total (m : gmap string Z) : Z :=
  map_fold (λ _ v acc, v + acc) 0 m.

(** A conversion for the examples: the value of a non-empty string of
    decimal digits, as [int] gives it, and a failure for anything else. *)
Fixpoint digits_value (acc : Z) (s : string) : option Z :=
  match s with
  | EmptyString => Some acc
  | String a s' =>
      let n := nat_of_ascii a in
      if ((48 <=? n) && (n <=? 57))%nat
      then digits_value (10 * acc + (Z.of_nat n - 48)) s'
      else None
  end.

Definition int_digits (s : string) : option Z :=
  match s with
  | EmptyString => None
  | _ => digits_value 0 s
  end.

(** * Properties *)

(** ** Ranges, strings and counters *)

Lemma elem_of_range k i : i ∈ range k ↔ 0 ≤ i < k.
Proof.
  unfold range. rewrite list_elem_of_fmap. split.
  - intros (n & -> & Hn). apply elem_of_seq in Hn. lia.
  - intros Hi. exists (Z.to_nat i). split; [lia|]. apply elem_of_seq. lia.
Qed.

Lemma range_nonpos k : k ≤ 0 → range k = [].
Proof. intros Hk. unfold range. by replace (Z.to_nat k) with 0%nat by lia. Qed.

Lemma forallb_elem_of {A} (f : A → bool) (l : list A) :
  forallb f l = true ↔ ∀ x, x ∈ l → f x = true.
Proof.
  rewrite forallb_forall. split; intros H x Hx; apply H; by apply list_elem_of_In.
Qed.

Lemma length_chars s : length (chars s) = String.length s.
Proof. induction s; simpl; congruence. Qed.

Lemma counter_step_count (m : gmap string Z) x k :
  count_of (<[x := default 0 (m !! x) + 1]> m) k = count_of m k + occ k [x].
Proof.
  unfold count_of, occ. rewrite filter_cons, filter_nil.
  destruct (decide (x = k)) as [->|Hne].
  - rewrite lookup_insert_eq. simpl. lia.
  - rewrite lookup_insert_ne by done. simpl. lia.
Qed.

Lemma occ_cons k x l : occ k (x :: l) = occ k [x] + occ k l.
Proof.
  unfold occ. rewrite !filter_cons, filter_nil.
  destruct (decide (x = k)); simpl; lia.
Qed.

Lemma occ_nonneg k l : 0 ≤ occ k l.
Proof. unfold occ. lia. Qed.

Lemma occ_pos k l : 0 < occ k l ↔ k ∈ l.
Proof.
  induction l as [|x l IH].
  - unfold occ. simpl. split; [lia|]. intros H. by apply elem_of_nil in H.
  - rewrite occ_cons, elem_of_cons. pose proof (occ_nonneg k l).
    unfold occ at 1. rewrite filter_cons, filter_nil.
    destruct (decide (x = k)) as [->|Hne]; simpl.
    + split; [auto|lia].
    + rewrite <- IH. split; [intros; right; lia|]. intros [->|?]; [done|lia].
Qed.

Lemma foldl_counter_count (m : gmap string Z) l k :
  count_of (foldl (λ m x, <[x := default 0 (m !! x) + 1]> m) m l) k
  = count_of m k + occ k l.
Proof.
  revert m. induction l as [|x l IH]; intros m; simpl.
  - unfold occ. simpl. lia.
  - rewrite IH, counter_step_count, (occ_cons k x l). lia.
Qed.

Lemma foldl_counter_lookup_None (m : gmap string Z) l k :
  foldl (λ m x, <[x := default 0 (m !! x) + 1]> m) m l !! k = None
  ↔ m !! k = None ∧ k ∉ l.
Proof.
  revert m. induction l as [|x l IH]; intros m; simpl.
  - split; [intros H; split; [done|apply not_elem_of_nil]|tauto].
  - rewrite IH, not_elem_of_cons, lookup_insert_None. intuition congruence.
Qed.

(** A counter holds exactly the elements counted, each with the number of
    its occurrences. *)
Lemma Counter_lookup l k :
  Counter l !! k = if decide (k ∈ l) then Some (occ k l) else None.
Proof.
  unfold Counter.
  pose proof (foldl_counter_count ∅ l k) as Hc.
  pose proof (foldl_counter_lookup_None ∅ l k) as Hn.
  unfold count_of in Hc. rewrite lookup_empty in Hc, Hn. simpl in Hc.
  destruct (decide (k ∈ l)) as [Hin|Hin].
  - destruct (foldl _ _ _ !! k) as [v|] eqn:E.
    + simpl in Hc. by rewrite Hc.
    + exfalso. destruct Hn as [Hn _]. destruct (Hn eq_refl) as [_ Hn']. done.
  - apply Hn. tauto.
Qed.

Lemma Counter_count l k : count_of (Counter l) k = occ k l.
Proof.
  unfold count_of. rewrite Counter_lookup. case_decide as Hin; [done|].
  simpl. pose proof (occ_pos k l). pose proof (occ_nonneg k l). 
  destruct (decide (occ k l = 0)); [lia|]. exfalso. apply Hin, H. lia.
Qed.

Lemma Counter_keys l k : k ∈ (map_to_list (Counter l)).*1 ↔ k ∈ l.
Proof.
  rewrite list_elem_of_fmap. split.
  - intros ([k' v] & -> & Hin). apply elem_of_map_to_list in Hin.
    rewrite Counter_lookup in Hin. simpl. by case_decide.
  - intros Hin. exists (k, occ k l). split; [done|].
    apply elem_of_map_to_list. rewrite Counter_lookup. by rewrite decide_True.
Qed.

(** ** The two checks decide their specifications *)

Lemma check_ngrams_in_word_spec word ngramset n :
  check_ngrams_in_word word ngramset n = true ↔ ngrams_within word ngramset n.
Proof.
  unfold check_ngrams_in_word, ngrams_within. rewrite forallb_elem_of.
  split; intros H i Hi.
  - apply elem_of_range in Hi. apply H in Hi. by apply bool_decide_eq_true in Hi.
  - apply elem_of_range in Hi. apply bool_decide_eq_true. by apply H.
Qed.

Lemma check_lettercount_in_word_spec word lettercount :
  check_lettercount_in_word word lettercount = true ↔ fits_budget word lettercount.
Proof.
  unfold check_lettercount_in_word, fits_budget. rewrite forallb_elem_of.
  split; intros H letter Hin.
  - apply (proj2 (Counter_keys _ _)) in Hin. specialize (H letter Hin). simpl in H.
    case_bool_decide as Hnone; [done|].
    apply negb_true_iff, bool_decide_eq_false in H.
    rewrite Counter_count in H. unfold count_of in H.
    destruct (lettercount !! letter) as [b|]; [|done].
    exists b. split; [done|]. simpl in H. lia.
  - apply (proj1 (Counter_keys _ _)) in Hin. destruct (H letter Hin) as (b & Hb & Hle).
    simpl. rewrite bool_decide_eq_false_2 by (rewrite Hb; done).
    apply negb_true_iff, bool_decide_eq_false.
    rewrite Counter_count. unfold count_of. rewrite Hb. simpl. lia.
Qed.

Lemma candidate_checks lettercount threegrams word :
  bool_decide (len word > 3) && check_lettercount_in_word word lettercount
    && check_ngrams_in_word word threegrams 3 = true
  ↔ candidate lettercount threegrams word.
Proof.
  unfold candidate.
  rewrite !andb_true_iff, bool_decide_eq_true,
    check_lettercount_in_word_spec, check_ngrams_in_word_spec.
  tauto.
Qed.

#[global] Instance candidate_dec lettercount threegrams word :
  Decision (candidate lettercount threegrams word).
Proof.
  refine (cast_if (decide (bool_decide (len word > 3)
                           && check_lettercount_in_word word lettercount
                           && check_ngrams_in_word word threegrams 3 = true)));
    by rewrite <- candidate_checks.
Defined.

Lemma filter_lines_foldl lettercount threegrams fin acc :
  foldl (λ possible_words line,
           let word := strip line in
           if bool_decide (len word > 3) && check_lettercount_in_word word lettercount
           then if check_ngrams_in_word word threegrams 3
                then possible_words ++ [word]
                else possible_words
           else possible_words)
        acc fin
  = acc ++ filter (candidate lettercount threegrams) (strip <$> fin).
Proof.
  revert acc. induction fin as [|line fin IH]; intros acc; simpl.
  - by rewrite filter_nil, app_nil_r.
  - rewrite IH, filter_cons.
    pose proof (candidate_checks lettercount threegrams (strip line)) as Hc.
    destruct (bool_decide (len (strip line) > 3)
              && check_lettercount_in_word (strip line) lettercount) eqn:E1;
      simpl in Hc.
    + destruct (check_ngrams_in_word (strip line) threegrams 3) eqn:E2.
      * rewrite decide_True by (by apply Hc). by rewrite <- app_assoc.
      * rewrite decide_False; [done|]. intros Hcand. apply Hc in Hcand. done.
    + rewrite decide_False; [done|]. intros Hcand. apply Hc in Hcand. done.
Qed.

(** The loop is a filter over the stripped lines. *)
Lemma filter_lines_filter lettercount threegrams fin :
  filter_lines lettercount threegrams fin
  = filter (candidate lettercount threegrams) (strip <$> fin).
Proof. unfold filter_lines. by rewrite filter_lines_foldl. Qed.

(** C6: the filtering pass keeps, in the order of the input stream, exactly
    the stripped lines that are longer than three characters, fit the letter
    budget and have all their length-three substrings in the trigram set;
    its output is a subsequence of the stream. *)
Theorem filter_lines_spec (lettercount : gmap string Z) (threegrams : gset string)
    (fin : list string) :
  filter_lines lettercount threegrams fin
    = filter (candidate lettercount threegrams) (strip <$> fin)
  ∧ sublist (filter_lines lettercount threegrams fin) (strip <$> fin)
  ∧ ∀ word, word ∈ filter_lines lettercount threegrams fin
            ↔ word ∈ strip <$> fin ∧ candidate lettercount threegrams word.
Proof.
  rewrite filter_lines_filter. split; [done|]. split.
  - apply sublist_filter.
  - intros word. rewrite list_elem_of_filter. tauto.
Qed.

(** C10: a word shorter than [n] passes the n-gram check whatever the set
    is, no substring being looked up; a word of at most three characters is
    nevertheless never in the filter's output. *)
Theorem check_ngrams_in_word_short (word : string) (ngramset : gset string) (n : Z) :
  len word < n →
  check_ngrams_in_word word ngramset n = true
  ∧ range (len word - n + 1) = []
  ∧ (len word ≤ 3 → ∀ lettercount fin, word ∉ filter_lines lettercount ngramset fin).
Proof.
  intros Hlen. split; [|split].
  - unfold check_ngrams_in_word. rewrite range_nonpos by lia. done.
  - apply range_nonpos. lia.
  - intros Hshort lettercount fin Hin.
    rewrite filter_lines_filter in Hin.
    apply list_elem_of_filter in Hin as [(Hgt & _) _]. lia.
Qed.

Lemma check_ngrams_in_word_short_witness :
  check_ngrams_in_word "ab" ∅ 3 = true
  ∧ range (len "ab" - 3 + 1) = []
  ∧ (len "ab" ≤ 3 → ∀ lettercount fin, "ab"%string ∉ filter_lines lettercount ∅ fin).
Proof. apply (check_ngrams_in_word_short "ab" ∅ 3). vm_compute. reflexivity. Defined.

(** C9: the letter-budget check is monotone in the budget: a word accepted
    under a budget is accepted under every pointwise larger one, and a word
    rejected under a budget is rejected under every pointwise smaller one. *)
Theorem check_lettercount_in_word_mono (word : string) (B B' : gmap string Z) :
  budget_le B B' →
  (check_lettercount_in_word word B = true → check_lettercount_in_word word B' = true)
  ∧ (check_lettercount_in_word word B' = false → check_lettercount_in_word word B = false).
Proof.
  intros Hle.
  assert (check_lettercount_in_word word B = true
          → check_lettercount_in_word word B' = true) as Hmono.
  { rewrite !check_lettercount_in_word_spec. intros Hfit letter Hin.
    destruct (Hfit letter Hin) as (b & Hb & Hocc).
    assert (0 < occ letter (chars word)) as Hpos by (by apply occ_pos).
    specialize (Hle letter). unfold count_of in Hle. rewrite Hb in Hle. simpl in Hle.
    destruct (B' !! letter) as [b'|]; simpl in Hle.
    - exists b'. split; [done|lia].
    - lia. }
  split; [done|].
  intros Hrej. destruct (check_lettercount_in_word word B); [|done].
  rewrite Hmono in Hrej; done.
Qed.

Lemma check_lettercount_in_word_mono_witness :
  (check_lettercount_in_word "abab" (Counter ["a"; "a"; "b"; "b"]%string) = true
   → check_lettercount_in_word "abab"
       (<["a"%string := 3]> (Counter ["a"; "a"; "b"; "b"]%string)) = true)
  ∧ (check_lettercount_in_word "abab"
       (<["a"%string := 3]> (Counter ["a"; "a"; "b"; "b"]%string)) = false
     → check_lettercount_in_word "abab" (Counter ["a"; "a"; "b"; "b"]%string) = false).
Proof.
  apply (check_lettercount_in_word_mono "abab").
  intros k. unfold count_of.
  destruct (decide (k = "a"%string)) as [->|Hne].
  - vm_compute. discriminate.
  - rewrite lookup_insert_ne by done. lia.
Defined.
(** ** The array keeps its shape *)

Lemma np_empty_shape junk r c : shape (np_empty junk r c) r c.
Proof.
  unfold shape, np_empty. split.
  - by rewrite length_fmap, length_seq.
  - apply Forall_fmap, Forall_forall. intros i _. simpl.
    by rewrite length_fmap, length_seq.
Qed.

Lemma np_index_Ok size i k : np_index size i = Ok k → (k < size)%nat.
Proof.
  unfold np_index. repeat case_bool_decide; intros [= <-]; lia.
Qed.

Lemma np_index_nonneg size i :
  0 ≤ i < Z.of_nat size → np_index size i = Ok (Z.to_nat i).
Proof. intros Hi. unfold np_index. by rewrite bool_decide_eq_true_2. Qed.

Lemma np_index_out size i :
  Z.of_nat size ≤ i → np_index size i = Raise IndexError.
Proof.
  intros Hi. unfold np_index. by rewrite !bool_decide_eq_false_2 by lia.
Qed.

Lemma shape_insert a r c k line :
  shape a r c → length line = c → shape (<[k := line]> a) r c.
Proof.
  intros [Hr Hc] Hline. split.
  - by rewrite length_insert.
  - apply Forall_insert; done.
Qed.

Lemma np_setitem_shape a row col v a' r c :
  shape a r c → np_setitem a row col v = Ok a' → shape a' r c.
Proof.
  intros Hs. unfold np_setitem.
  destruct (np_index (length a) row) as [k|] eqn:Ek; simpl; [|done].
  destruct (a !! k) as [line|] eqn:El; [|done].
  destruct (np_index (length line) col) as [j|]; simpl; [|done].
  intros [= <-]. apply shape_insert; [done|].
  rewrite length_insert. destruct Hs as [_ Hc].
  by apply (Forall_lookup_1 _ _ _ _ Hc El).
Qed.

Lemma np_setrow_shape a row vals a' r c :
  shape a r c → np_setrow a row vals = Ok a' → shape a' r c.
Proof.
  intros Hs. unfold np_setrow.
  destruct (np_index (length a) row) as [k|] eqn:Ek; simpl; [|done].
  destruct (a !! k) as [line|] eqn:El; [|done].
  assert (length line = c) as Hline.
  { destruct Hs as [_ Hc]. by apply (Forall_lookup_1 _ _ _ _ Hc El). }
  case_bool_decide as Hlen.
  - intros [= <-]. apply shape_insert; [done|]. rewrite length_fmap. lia.
  - destruct vals as [|v [|? ?]]; try done.
    intros [= <-]. apply shape_insert; [done|]. by rewrite length_fmap.
Qed.

(** What the constructor builds: [n] rows of [n] cells, whatever [m] is. *)
Lemma WordGrid_init_shape junk m n :
  0 ≤ n →
  ∃ g, WordGrid_init junk m n = Ok g ∧ rows g = m ∧ cols g = n
       ∧ shape (grid g) (Z.to_nat n) (Z.to_nat n).
Proof.
  intros Hn. unfold WordGrid_init. rewrite bool_decide_eq_false_2 by lia.
  eexists. repeat split; simpl; apply np_empty_shape.
Qed.

(** The array is the [m] by [n] array of the data model only when the grid
    is square. *)
Lemma WordGrid_init_m_by_n junk m n :
  0 < m → 0 < n →
  ∃ g, WordGrid_init junk m n = Ok g
       ∧ (shape (grid g) (Z.to_nat m) (Z.to_nat n) ↔ m = n).
Proof.
  intros Hm Hn. destruct (WordGrid_init_shape junk m n) as (g & Hg & _ & _ & Hlen & Hl); [lia|].
  exists g. split; [done|]. split.
  - intros [Hlen' _]. lia.
  - intros ->. by split.
Qed.

(** Every update keeps the array's shape and the two recorded sizes. *)
Lemma update_grid_onefield_shape g row col letter r c :
  shape (grid g) r c →
  let g' := (update_grid_onefield g row col letter).1 in
  shape (grid g') r c ∧ rows g' = rows g ∧ cols g' = cols g.
Proof.
  intros Hs. unfold update_grid_onefield.
  destruct (np_setitem (grid g) row col letter) as [a|] eqn:E; simpl; [|done].
  split; [|done]. by eapply np_setitem_shape.
Qed.

Lemma update_gridline_from_string_shape g row s g' out r c :
  shape (grid g) r c →
  update_gridline_from_string g row s = Ok (g', out) →
  shape (grid g') r c ∧ rows g' = rows g ∧ cols g' = cols g.
Proof.
  intros Hs. unfold update_gridline_from_string. case_bool_decide.
  - destruct (np_setrow (grid g) row (chars s)) as [a|] eqn:E; simpl; [|done].
    intros [= <- <-]. split; [|done]. by eapply np_setrow_shape.
  - by intros [= <- <-].
Qed.

Lemma update_gridline_from_list_shape g row lst g' out r c :
  shape (grid g) r c →
  update_gridline_from_list g row lst = Ok (g', out) →
  shape (grid g') r c ∧ rows g' = rows g ∧ cols g' = cols g.
Proof.
  intros Hs. unfold update_gridline_from_list. case_bool_decide.
  - destruct (np_setrow (grid g) row lst) as [a|] eqn:E; simpl; [|done].
    intros [= <- <-]. split; [|done]. by eapply np_setrow_shape.
  - by intros [= <- <-].
Qed.

(** ** The constructor and the row update on a grid that is not square *)

(** C1: [WordGrid(2, 3)] records two rows and three columns, but the array
    it allocates has three rows of three cells: it is not a 2-by-3 array. *)
Theorem WordGrid_init_2_3_is_3_by_3 :
  ∀ junk, ∃ g, WordGrid_init junk 2 3 = Ok g
    ∧ rows g = 2 ∧ cols g = 3
    ∧ shape (grid g) 3 3 ∧ ¬ shape (grid g) 2 3.
Proof.
  intros junk. destruct (WordGrid_init_shape junk 2 3) as (g & Hg & Hr & Hc & Hs); [lia|].
  exists g. repeat split; try done; try apply Hs.
  intros [Hlen _]. destruct Hs as [Hlen' _]. rewrite Hlen' in Hlen. done.
Qed.

(** C3: on [WordGrid(1, 3)] a string of three letters, the column count, is
    turned down and the grid is left as it was, while a string of one
    letter, the row count, is taken and spread over the three cells of the
    row. *)
Theorem update_gridline_from_string_1_3 :
  ∀ junk, ∃ g, WordGrid_init junk 1 3 = Ok g
    ∧ cols g = 3
    ∧ update_gridline_from_string g 0 "abc"
      = Ok (g, ["Your string of letters doesn't really fit into the grid"%string])
    ∧ ∃ g', update_gridline_from_string g 0 "x" = Ok (g', [])
            ∧ grid g' !! 0%nat = Some ["x"; "x"; "x"]%string.
Proof.
  intros junk. eexists. split; [reflexivity|]. split; [reflexivity|].
  split; [reflexivity|]. eexists. split; reflexivity.
Qed.

(** C2: in [WordGrid(2, 1)] the array has the single cell (0, 0); with that
    cell filled, [lettercount] returns, but [get_all_threegrams] takes
    (1, 0) for a valid neighbour and reading it raises [IndexError].  The
    same happens when the grid comes from [fill_grid_from_cmdline], which
    turns down both one-letter lines. *)
Theorem get_all_threegrams_2_1_raises :
  ∀ junk, ∃ g, WordGrid_init junk 2 1 = Ok g
    ∧ (let g' := (update_grid_onefield g 0 0 "a").1 in
       grid g' = [["a"%string]]
       ∧ lettercount g' = {[ "a"%string := 1 ]}
       ∧ is_valid_index g' 1 0 = true
       ∧ get_neighbours_index g' 0 0 = [(1, 0)]
       ∧ get_element g' 1 0 = Raise IndexError
       ∧ get_two_neighbours g' 0 0 = Raise IndexError
       ∧ get_all_threegrams g' = Raise IndexError
       ∧ filter_wordlistfile (λ _, Some []) "words.txt" g' = Raise IndexError)
    ∧ fill_grid_from_cmdline ["a"; "b"]%string g = Ok g
    ∧ get_all_threegrams g = Raise IndexError.
Proof.
  intros junk. eexists. split; [reflexivity|].
  repeat split; vm_compute; reflexivity.
Qed.

(** ** The example grids are built by the program *)

Lemma grid_abcd_built : square_grid 2 ["ab"; "cd"]%string = Ok grid_abcd.
Proof. reflexivity. Qed.

Lemma grid_ABCD_built : square_grid 2 ["AB"; "CD"]%string = Ok grid_ABCD.
Proof. reflexivity. Qed.

Lemma grid_gap_built : square_grid 1 [" "]%string = Ok grid_gap.
Proof. reflexivity. Qed.

(** ** Case *)

(** C4: nothing in the pipeline folds case.  The word "abcd" of the word
    list is turned down for the grid AB/CD and accepted for the same grid in
    lower case, and "ABCD" is accepted where "abcd" is not. *)
Theorem filter_wordlistfile_case_sensitive :
  let fs := λ _ : string, Some ["abcd"; "ABCD"]%string in
  fully_constructed grid_ABCD
  ∧ get_element grid_ABCD 0 0 = Ok "A"%string
  ∧ filter_wordlistfile fs "words.txt" grid_ABCD = Ok ["ABCD"%string]
  ∧ filter_wordlistfile fs "words.txt" (lower_grid grid_ABCD) = Ok ["abcd"%string]
  ∧ filter_wordlistfile (λ f, option_map (map lower) (fs f)) "words.txt" grid_ABCD = Ok [].
Proof.
  split; [by apply (bool_decide_unpack _); vm_compute|].
  repeat split; vm_compute; reflexivity.
Qed.

(** ** The letter budget *)

(** C5, as stated, fails on a grid with a gap: the gap marker gets a budget
    entry, the number of gap cells. *)
Lemma lettercount_counts_gap :
  ¬ (∀ g c, fully_constructed g →
        count_of (lettercount g) c = nongap_count g c
        ∧ lettercount g !! gap = None).
Proof.
  intros H. destruct (H grid_gap gap) as [H1 H2].
  - by apply (bool_decide_unpack _); vm_compute.
  - vm_compute in H2. discriminate.
Qed.

Lemma nongap_count_occ g c :
  nongap_count g c = if decide (c = gap) then 0 else occ c (flatten (grid g)).
Proof.
  unfold nongap_count, occ. destruct (decide (c = gap)) as [->|Hc].
  - induction (flatten (grid g)) as [|x l IH]; [done|].
    rewrite filter_cons. by rewrite decide_False by tauto.
  - induction (flatten (grid g)) as [|x l IH]; [done|].
    rewrite !filter_cons. destruct (decide (x = c)) as [->|Hne].
    + rewrite decide_True by done. simpl. lia.
    + by rewrite decide_False by tauto.
Qed.

(** C5, amended: [lettercount] maps every cell value, the gap marker
    included, to the number of cells of the array that hold it, and has no
    entry for a value no cell holds; so for a character other than the gap
    marker the count is the number of non-gap cells holding it, and for the
    gap marker it is the number of gap cells. *)
Theorem lettercount_spec (g : WordGrid) (c : string) :
  lettercount g !! c
    = (if decide (c ∈ flatten (grid g)) then Some (occ c (flatten (grid g))) else None)
  ∧ count_of (lettercount g) c
    = nongap_count g c + (if decide (c = gap) then occ gap (flatten (grid g)) else 0).
Proof.
  unfold lettercount. split.
  - apply Counter_lookup.
  - rewrite Counter_count, nongap_count_occ. case_decide; [subst c|]; lia.
Qed.

(** ** Neighbours *)

Lemma get_neighbours_index_cells g r c :
  get_neighbours_index g r c
  = cell g (r - 1) (c - 1) ++ cell g (r - 1) c ++ cell g (r - 1) (c + 1)
    ++ cell g r (c - 1) ++ cell g r (c + 1)
    ++ cell g (r + 1) (c - 1) ++ cell g (r + 1) c ++ cell g (r + 1) (c + 1).
Proof.
  unfold get_neighbours_index, cell. cbn.
  rewrite (bool_decide_eq_true_2 (0 = 0 ∧ 0 = 0)) by done.
  rewrite !bool_decide_eq_false_2 by lia.
  rewrite !Z.add_0_r. change (r + -1) with (r - 1). change (c + -1) with (c - 1).
  simpl negb. rewrite !andb_true_r, andb_false_r, !app_nil_r.
  by rewrite <- !app_assoc.
Qed.

Lemma elem_of_cell g r c p :
  p ∈ cell g r c ↔ is_valid_index g r c = true ∧ p = (r, c).
Proof.
  unfold cell. destruct (is_valid_index g r c).
  - rewrite list_elem_of_singleton. tauto.
  - rewrite elem_of_nil. split; [done|]. by intros [? _].
Qed.

Lemma length_cell g r c :
  length (cell g r c) = if is_valid_index g r c then 1%nat else 0%nat.
Proof. unfold cell. by destruct (is_valid_index g r c). Qed.

Lemma sublist_cell g r c l k :
  sublist l k → sublist (cell g r c ++ l) ((r, c) :: k).
Proof.
  intros H. unfold cell. destruct (is_valid_index g r c); simpl.
  - by apply sublist_skip.
  - by apply sublist_cons.
Qed.

Lemma get_neighbours_index_NoDup g r c : NoDup (get_neighbours_index g r c).
Proof.
  rewrite get_neighbours_index_cells.
  assert (NoDup [(r - 1, c - 1); (r - 1, c); (r - 1, c + 1); (r, c - 1); (r, c + 1);
                 (r + 1, c - 1); (r + 1, c); (r + 1, c + 1)]) as Hall; [|
    assert (sublist
      (cell g (r - 1) (c - 1) ++ cell g (r - 1) c ++ cell g (r - 1) (c + 1)
       ++ cell g r (c - 1) ++ cell g r (c + 1)
       ++ cell g (r + 1) (c - 1) ++ cell g (r + 1) c ++ cell g (r + 1) (c + 1))
      [(r - 1, c - 1); (r - 1, c); (r - 1, c + 1); (r, c - 1); (r, c + 1);
       (r + 1, c - 1); (r + 1, c); (r + 1, c + 1)]) as Hsub ].
  - repeat (apply NoDup_cons; split;
            [rewrite ?elem_of_cons, elem_of_nil;
             intros Hx; decompose [or] Hx; try done; simplify_eq; lia|]).
    apply NoDup_nil_2.
  - do 7 apply sublist_cell.
    rewrite <- (app_nil_r (cell _ _ _)). apply sublist_cell. constructor.
  - by eapply sublist_NoDup.
Qed.

Lemma elem_of_get_neighbours_index g r c p :
  p ∈ get_neighbours_index g r c
  ↔ is_valid_index g p.1 p.2 = true ∧ chebyshev p (r, c) = 1.
Proof.
  rewrite get_neighbours_index_cells, !elem_of_app, !elem_of_cell.
  destruct p as [pr pc]. unfold chebyshev. simpl. split.
  - intros H. decompose [or and] H; simplify_eq; (split; [done|lia]).
  - intros [Hv Hd].
    assert (pr = r - 1 ∨ pr = r ∨ pr = r + 1) as Hr by lia.
    assert (pc = c - 1 ∨ pc = c ∨ pc = c + 1) as Hc by lia.
    destruct Hr as [-> | [-> | ->]]; destruct Hc as [-> | [-> | ->]];
      try (exfalso; lia); tauto.
Qed.

(** Rewrites every bounds test the context decides. *)
Ltac decide_valid :=
  unfold is_valid_index;
  repeat match goal with
    | |- context [bool_decide ?P] =>
        first [ rewrite (bool_decide_eq_true_2 P) by lia
              | rewrite (bool_decide_eq_false_2 P) by lia ]
    end.

Lemma length_get_neighbours_index g r c :
  2 ≤ rows g → 2 ≤ cols g → is_valid_index g r c = true →
  length (get_neighbours_index g r c) = neighbour_count g r c.
Proof.
  intros Hrows Hcols Hv. apply bool_decide_eq_true in Hv.
  rewrite get_neighbours_index_cells, !length_app, !length_cell.
  unfold neighbour_count, on_border.
  assert (r = 0 ∨ r = rows g - 1 ∨ 0 < r < rows g - 1) as Hr by lia.
  assert (c = 0 ∨ c = cols g - 1 ∨ 0 < c < cols g - 1) as Hc by lia.
  destruct Hr as [Hr|[Hr|Hr]]; destruct Hc as [Hc|[Hc|Hc]];
    decide_valid; reflexivity.
Qed.

(** C7, as stated, fails on a grid of a single cell: the cell is a corner
    and has no neighbour at all. *)
Lemma get_neighbours_index_single_cell :
  fully_constructed grid_gap
  ∧ is_valid_index grid_gap 0 0 = true
  ∧ on_border (rows grid_gap) 0 ∧ on_border (cols grid_gap) 0
  ∧ get_neighbours_index grid_gap 0 0 = []
  ∧ ¬ (length (get_neighbours_index grid_gap 0 0) = 3%nat
       ∨ length (get_neighbours_index grid_gap 0 0) = 5%nat
       ∨ length (get_neighbours_index grid_gap 0 0) = 8%nat).
Proof.
  split; [by apply (bool_decide_unpack _); vm_compute|].
  split; [reflexivity|]. split; [by left|]. split; [by left|].
  split; [reflexivity|]. vm_compute. intros [H|[H|H]]; discriminate.
Qed.

(** C7, amended: for an in-bounds cell, [get_neighbours_index] lists, each
    once, exactly the in-bounds cells at Chebyshev distance 1; when the grid
    has at least two rows and two columns these are 3 for a corner cell, 5
    for any other cell on an edge and 8 for an interior cell. *)
Theorem get_neighbours_index_spec (g : WordGrid) (r c : Z) :
  is_valid_index g r c = true →
  NoDup (get_neighbours_index g r c)
  ∧ (∀ p, p ∈ get_neighbours_index g r c
          ↔ is_valid_index g p.1 p.2 = true ∧ chebyshev p (r, c) = 1)
  ∧ (2 ≤ rows g → 2 ≤ cols g →
     length (get_neighbours_index g r c) = neighbour_count g r c).
Proof.
  intros Hv. split; [apply get_neighbours_index_NoDup|].
  split; [apply elem_of_get_neighbours_index|].
  intros Hrows Hcols. by apply length_get_neighbours_index.
Qed.

Lemma get_neighbours_index_spec_witness :
  NoDup (get_neighbours_index grid_abcd 0 1)
  ∧ (∀ p, p ∈ get_neighbours_index grid_abcd 0 1
          ↔ is_valid_index grid_abcd p.1 p.2 = true ∧ chebyshev p (0, 1) = 1)
  ∧ length (get_neighbours_index grid_abcd 0 1) = 3%nat.
Proof.
  destruct (get_neighbours_index_spec grid_abcd 0 1) as (Hnd & Hin & Hlen).
  - reflexivity.
  - split; [exact Hnd|]. split; [exact Hin|]. apply Hlen; simpl; lia.
Defined.

(** ** Loops that may raise *)

Lemma bind_Ok {A B} (m : result A) (f : A → result B) b :
  m ≫= f = Ok b ↔ ∃ a, m = Ok a ∧ f a = Ok b.
Proof.
  destruct m as [a|e]; simpl; split.
  - intros H. by exists a.
  - by intros (a' & [= <-] & H).
  - done.
  - by intros (a' & [=] & _).
Qed.

Lemma mapM_cons {A B} (f : A → result B) x l :
  mapM f (x :: l) = y ← f x; k ← mapM f l; Ok (y :: k).
Proof. reflexivity. Qed.

Lemma mapM_Ok_elem {A B} (f : A → result B) l ys y :
  mapM f l = Ok ys → (y ∈ ys ↔ ∃ x, x ∈ l ∧ f x = Ok y).
Proof.
  revert ys. induction l as [|x l IH]; intros ys.
  - intros [= <-]. rewrite elem_of_nil. split; [done|].
    intros (x & Hx & _). by apply elem_of_nil in Hx.
  - rewrite mapM_cons. intros H.
    apply bind_Ok in H as (y0 & Hy0 & H). apply bind_Ok in H as (k & Hk & [= <-]).
    rewrite elem_of_cons, (IH k Hk). split.
    + intros [->|(x' & Hx' & Hf)].
      * exists x. split; [apply elem_of_cons; by left|done].
      * exists x'. split; [apply elem_of_cons; by right|done].
    + intros (x' & Hx' & Hf). apply elem_of_cons in Hx' as [->|Hx'].
      * left. congruence.
      * right. by exists x'.
Qed.

Lemma mapM_is_Ok {A B} (f : A → result B) l :
  (∀ x, x ∈ l → is_Ok (f x)) → is_Ok (mapM f l).
Proof.
  induction l as [|x l IH]; intros H.
  - by exists [].
  - rewrite mapM_cons.
    destruct (H x) as [y Hy]; [apply elem_of_cons; by left|].
    destruct IH as [k Hk]; [intros x' Hx'; apply H, elem_of_cons; by right|].
    rewrite Hy, Hk. by exists (y :: k).
Qed.

Lemma elem_of_concat {A} (x : A) (ls : list (list A)) :
  x ∈ concat ls ↔ ∃ l, l ∈ ls ∧ x ∈ l.
Proof.
  rewrite list_elem_of_In, in_concat. split; intros (l & H1 & H2); exists l.
  - by rewrite !list_elem_of_In.
  - by rewrite <- !list_elem_of_In.
Qed.

Lemma foldl_insert_lookup {V} (f : Z * Z → V) (l : list (Z * Z)) (d : gmap (Z * Z) V) k :
  foldl (λ d x, <[x := f x]> d) d l !! k
  = if decide (k ∈ l) then Some (f k) else d !! k.
Proof.
  revert d. induction l as [|x l IH]; intros d; cbn [foldl].
  - rewrite decide_False; [done|apply not_elem_of_nil].
  - rewrite IH. destruct (decide (k ∈ l)) as [Hin|Hin].
    + rewrite decide_True; [done|]. apply elem_of_cons. by right.
    + destruct (decide (k = x)) as [->|Hne].
      * rewrite lookup_insert_eq, decide_True; [done|]. apply elem_of_cons. by left.
      * rewrite lookup_insert_ne by done. rewrite decide_False; [done|].
        rewrite elem_of_cons. tauto.
Qed.

(** ** Two steps from a cell *)

Lemma neighbour_dict_lookup g r c key :
  neighbour_dict g r c !! key
  = if decide (key ∈ get_neighbours_index g r c)
    then Some (filter (λ nextneighbour, nextneighbour ≠ (r, c))
                      (get_neighbours_index g key.1 key.2))
    else None.
Proof.
  unfold neighbour_dict.
  rewrite (foldl_insert_lookup
             (λ neighbour, filter (λ nextneighbour, nextneighbour ≠ (r, c))
                                  (get_neighbours_index g neighbour.1 neighbour.2))).
  by rewrite lookup_empty.
Qed.

Lemma grams_of_entry_elem g r c key itemlist ts t :
  grams_of_entry g r c (key, itemlist) = Ok ts →
  t ∈ ts ↔ ∃ item e0 e1 e2,
             item ∈ itemlist
             ∧ get_element g r c = Ok e0
             ∧ get_element g key.1 key.2 = Ok e1
             ∧ get_element g item.1 item.2 = Ok e2
             ∧ t = (e0 +:+ e1) +:+ e2.
Proof.
  unfold grams_of_entry. intros H.
  apply bind_Ok in H as (e0 & He0 & H). apply bind_Ok in H as (e1 & He1 & H).
  rewrite (mapM_Ok_elem _ _ _ t H). split.
  - intros (item & Hitem & Hg). apply bind_Ok in Hg as (e2 & He2 & [= <-]).
    by exists item, e0, e1, e2.
  - intros (item & e0' & e1' & e2 & Hitem & He0' & He1' & He2 & ->).
    exists item. split; [done|]. rewrite He2. simpl. congruence.
Qed.

(** The trigrams of [get_two_neighbours] are exactly the letter sequences of
    the two-step paths that do not step back. *)
Lemma get_two_neighbours_elem g r c grams t :
  get_two_neighbours g r c = Ok grams →
  t ∈ grams ↔ ∃ n1 n2 e0 e1 e2,
                two_step_path g r c n1 n2 e0 e1 e2 ∧ t = (e0 +:+ e1) +:+ e2.
Proof.
  unfold get_two_neighbours. intros H.
  apply bind_Ok in H as (threegrams & Hm & [= <-]).
  rewrite elem_of_list_to_set, elem_of_concat. split.
  - intros (ts & Hts & Ht).
    apply (mapM_Ok_elem _ _ _ ts Hm) in Hts as ([key itemlist] & Hentry & Hg).
    apply elem_of_map_to_list in Hentry. rewrite neighbour_dict_lookup in Hentry.
    case_decide as Hkey; [|done]. injection Hentry as <-.
    apply (grams_of_entry_elem _ _ _ _ _ _ t Hg) in Ht
      as (item & e0 & e1 & e2 & Hitem & He0 & He1 & He2 & ->).
    apply list_elem_of_filter in Hitem as [Hne Hitem].
    exists key, item, e0, e1, e2. by repeat split.
  - intros (n1 & n2 & e0 & e1 & e2 & (Hn1 & Hn2 & Hne & He0 & He1 & He2) & ->).
    set (itemlist := filter (λ nextneighbour, nextneighbour ≠ (r, c))
                            (get_neighbours_index g n1.1 n1.2)).
    assert ((n1, itemlist) ∈ map_to_list (neighbour_dict g r c)) as Hentry.
    { apply elem_of_map_to_list. rewrite neighbour_dict_lookup.
      by rewrite decide_True. }
    assert (∃ ts, ts ∈ threegrams ∧ grams_of_entry g r c (n1, itemlist) = Ok ts)
      as (ts & Hts & Hg).
    { destruct (grams_of_entry g r c (n1, itemlist)) as [ts|e] eqn:E.
      - exists ts. split; [|done]. apply (mapM_Ok_elem _ _ _ ts Hm). eauto.
      - exfalso. clear -Hm Hentry E.
        revert threegrams Hm. induction (map_to_list (neighbour_dict g r c)) as [|x l IH];
          intros threegrams Hm; [by apply elem_of_nil in Hentry|].
        rewrite mapM_cons in Hm.
        apply bind_Ok in Hm as (y & Hy & Hm). apply bind_Ok in Hm as (k & Hk & _).
        apply elem_of_cons in Hentry as [<-|Hentry]; [congruence|]. by eapply IH. }
    exists ts. split; [done|].
    apply (grams_of_entry_elem _ _ _ _ _ _ _ Hg).
    exists n2, e0, e1, e2. repeat split; try done.
    apply list_elem_of_filter. by split.
Qed.

(** ** Reading cells of a grid whose array covers its logical size *)

Lemma get_element_covers g r c :
  covers g → is_valid_index g r c = true →
  ∃ line x, grid g !! Z.to_nat r = Some line ∧ line !! Z.to_nat c = Some x
            ∧ get_element g r c = Ok x.
Proof.
  intros [Hrows Hcols] Hv. apply bool_decide_eq_true in Hv.
  unfold get_element, np_getitem.
  rewrite np_index_nonneg by lia. simpl.
  destruct (lookup_lt_is_Some_2 (grid g) (Z.to_nat r)) as [line Hline]; [lia|].
  rewrite Hline.
  pose proof (Forall_lookup_1 _ _ _ _ Hcols Hline) as Hlen. simpl in Hlen.
  rewrite np_index_nonneg by lia. simpl.
  destruct (lookup_lt_is_Some_2 line (Z.to_nat c)) as [x Hx]; [lia|].
  rewrite Hx. by exists line, x.
Qed.

Lemma fully_constructed_covers g : fully_constructed g → covers g.
Proof.
  intros (Hr & Hc & [Hlen Hlines] & _). split; [lia|].
  eapply Forall_impl; [exact Hlines|]. simpl. intros line Hl. lia.
Qed.

(** In a fully constructed grid every valid index holds one character. *)
Lemma get_element_letter g r c :
  fully_constructed g → is_valid_index g r c = true →
  ∃ a, get_element g r c = Ok (String a EmptyString).
Proof.
  intros Hfc Hv.
  destruct (get_element_covers g r c (fully_constructed_covers g Hfc) Hv)
    as (line & x & Hline & Hx & Hget).
  destruct Hfc as (_ & _ & _ & Hcells).
  pose proof (Forall_lookup_1 _ _ _ _ Hcells Hline) as Hl.
  pose proof (Forall_lookup_1 _ _ _ _ Hl Hx) as Hone. simpl in Hone.
  destruct x as [|a [|b x]]; try done. by exists a.
Qed.

Section total.
Variable g : WordGrid.
Hypothesis Hcovers : covers g.

Lemma get_element_is_Ok r c :
  is_valid_index g r c = true → is_Ok (get_element g r c).
Proof.
  intros Hv. destruct (get_element_covers g r c Hcovers Hv) as (? & x & _ & _ & Hx).
  by exists x.
Qed.

Lemma neighbour_valid r c p :
  p ∈ get_neighbours_index g r c → is_valid_index g p.1 p.2 = true.
Proof. intros Hp. by apply elem_of_get_neighbours_index in Hp as [Hv _]. Qed.

(** From a valid cell every read of [get_two_neighbours] is in bounds. *)
Lemma get_two_neighbours_is_Ok r c :
  is_valid_index g r c = true → is_Ok (get_two_neighbours g r c).
Proof.
  intros Hv. unfold get_two_neighbours.
  destruct (mapM_is_Ok (grams_of_entry g r c) (map_to_list (neighbour_dict g r c)))
    as [threegrams Hm].
  - intros [key itemlist] Hentry.
    apply elem_of_map_to_list in Hentry. rewrite neighbour_dict_lookup in Hentry.
    case_decide as Hkey; [|done]. injection Hentry as <-.
    unfold grams_of_entry.
    destruct (get_element_is_Ok r c Hv) as [e0 ->].
    destruct (get_element_is_Ok key.1 key.2 (neighbour_valid _ _ _ Hkey)) as [e1 ->].
    simpl.
    destruct (mapM_is_Ok
                (λ item : Z * Z, e2 ← get_element g item.1 item.2; Ok ((e0 +:+ e1) +:+ e2))
                (filter (λ nextneighbour, nextneighbour ≠ (r, c))
                        (get_neighbours_index g key.1 key.2))) as [ts Hts].
    + intros item Hitem. apply list_elem_of_filter in Hitem as [_ Hitem].
      destruct (get_element_is_Ok item.1 item.2 (neighbour_valid _ _ _ Hitem)) as [e2 ->].
      simpl. by eexists.
    + rewrite Hts. by exists ts.
  - rewrite Hm. simpl. by eexists.
Qed.

(** Every stage of the pipeline returns. *)
Lemma get_all_threegrams_is_Ok : is_Ok (get_all_threegrams g).
Proof.
  unfold get_all_threegrams.
  destruct (mapM_is_Ok
              (λ row, mapM (λ col, grams ← get_two_neighbours g row col;
                                   Ok (elements grams)) (range (cols g)))
              (range (rows g))) as [allgrams Hm].
  - intros row Hrow. apply elem_of_range in Hrow.
    apply mapM_is_Ok. intros col Hcol. apply elem_of_range in Hcol.
    destruct (get_two_neighbours_is_Ok row col) as [grams ->].
    + apply bool_decide_eq_true. lia.
    + simpl. by eexists.
  - rewrite Hm. simpl. by eexists.
Qed.

Lemma filter_wordlistfile_is_Ok fs filename fin :
  fs filename = Some fin → is_Ok (filter_wordlistfile fs filename g).
Proof.
  intros Hfs. unfold filter_wordlistfile.
  destruct get_all_threegrams_is_Ok as [threegrams ->]. simpl.
  rewrite Hfs. by eexists.
Qed.
End total.

(** C8: from an in-bounds cell of a fully constructed grid
    [get_two_neighbours] returns a set, and each trigram in it is made of
    the letter of the cell, the letter of one of its neighbours and the
    letter of a neighbour of that neighbour which is not the cell itself;
    conversely every such path contributes its trigram. *)
Theorem get_two_neighbours_spec (g : WordGrid) (r c : Z) :
  fully_constructed g → is_valid_index g r c = true →
  ∃ grams, get_two_neighbours g r c = Ok grams
    ∧ ∀ t, t ∈ grams ↔
        ∃ n1 n2 a0 a1 a2,
          n1 ∈ get_neighbours_index g r c
          ∧ n2 ∈ get_neighbours_index g n1.1 n1.2
          ∧ n2 ≠ (r, c)
          ∧ get_element g r c = Ok (String a0 EmptyString)
          ∧ get_element g n1.1 n1.2 = Ok (String a1 EmptyString)
          ∧ get_element g n2.1 n2.2 = Ok (String a2 EmptyString)
          ∧ t = String a0 (String a1 (String a2 EmptyString)).
Proof.
  intros Hfc Hv.
  destruct (get_two_neighbours_is_Ok g (fully_constructed_covers g Hfc) r c Hv)
    as [grams Hgrams].
  exists grams. split; [done|]. intros t.
  rewrite (get_two_neighbours_elem g r c grams t Hgrams). split.
  - intros (n1 & n2 & e0 & e1 & e2 & (Hn1 & Hn2 & Hne & He0 & He1 & He2) & ->).
    destruct (get_element_letter g r c Hfc Hv) as [a0 Ha0].
    destruct (get_element_letter g n1.1 n1.2 Hfc (neighbour_valid g _ _ _ Hn1)) as [a1 Ha1].
    destruct (get_element_letter g n2.1 n2.2 Hfc (neighbour_valid g _ _ _ Hn2)) as [a2 Ha2].
    exists n1, n2, a0, a1, a2. repeat split; try done.
    rewrite He0 in Ha0. rewrite He1 in Ha1. rewrite He2 in Ha2.
    by simplify_eq.
  - intros (n1 & n2 & a0 & a1 & a2 & Hn1 & Hn2 & Hne & He0 & He1 & He2 & ->).
    exists n1, n2, (String a0 EmptyString), (String a1 EmptyString), (String a2 EmptyString).
    by repeat split.
Qed.

Lemma get_two_neighbours_spec_witness :
  ∃ grams, get_two_neighbours grid_abcd 0 0 = Ok grams
    ∧ ∀ t, t ∈ grams ↔
        ∃ n1 n2 a0 a1 a2,
          n1 ∈ get_neighbours_index grid_abcd 0 0
          ∧ n2 ∈ get_neighbours_index grid_abcd n1.1 n1.2
          ∧ n2 ≠ (0, 0)
          ∧ get_element grid_abcd 0 0 = Ok (String a0 EmptyString)
          ∧ get_element grid_abcd n1.1 n1.2 = Ok (String a1 EmptyString)
          ∧ get_element grid_abcd n2.1 n2.2 = Ok (String a2 EmptyString)
          ∧ t = String a0 (String a1 (String a2 EmptyString)).
Proof.
  apply (get_two_neighbours_spec grid_abcd 0 0).
  - apply (bool_decide_unpack _). vm_compute. reflexivity.
  - reflexivity.
Defined.

(** ** The whole pipeline on grids whose array covers them *)

(** When there are no more rows than columns the array of the constructor
    covers the logical grid, and it still does after any update. *)
Lemma WordGrid_init_covers junk m n :
  0 ≤ n → m ≤ n → ∃ g, WordGrid_init junk m n = Ok g ∧ covers g.
Proof.
  intros Hn Hm. destruct (WordGrid_init_shape junk m n Hn) as (g & Hg & Hr & Hc & Hlen & Hl).
  exists g. split; [done|]. split; [lia|].
  eapply Forall_impl; [exact Hl|]. simpl. intros line Hline. lia.
Qed.

Lemma shape_covers g r c :
  shape (grid g) r c → rows g ≤ Z.of_nat r → cols g ≤ Z.of_nat c → covers g.
Proof.
  intros [Hlen Hl] Hr Hc. split; [lia|].
  eapply Forall_impl; [exact Hl|]. simpl. intros line Hline. lia.
Qed.

(** The filter applied to a grid and a readable word list. *)
Lemma filter_wordlistfile_spec fs filename fin g :
  covers g → fs filename = Some fin →
  ∃ threegrams, get_all_threegrams g = Ok threegrams
    ∧ filter_wordlistfile fs filename g
      = Ok (filter (candidate (lettercount g) threegrams) (strip <$> fin)).
Proof.
  intros Hcov Hfs. destruct (get_all_threegrams_is_Ok g Hcov) as [threegrams Htg].
  exists threegrams. split; [done|]. unfold filter_wordlistfile.
  rewrite Htg. simpl. rewrite Hfs.
  by rewrite filter_lines_filter.
Qed.

(** ** Slices are substrings *)

Lemma substring_take_drop n m s : substring n m s = str_take m (str_drop n s).
Proof.
  revert n m. induction s as [|a s IH]; intros [|n] [|m]; simpl; try done;
    by rewrite IH.
Qed.

(** Inside the word a slice of width [n] is the substring of [n]
    characters starting there. *)
Lemma py_slice_substring word i n :
  0 ≤ i → 0 ≤ n → i + n ≤ len word →
  py_slice word i (i + n) = substring (Z.to_nat i) (Z.to_nat n) word.
Proof.
  intros Hi Hn Hlen. unfold py_slice, slice_bound.
  rewrite !bool_decide_eq_false_2 by lia.
  rewrite !Z.min_l by lia. rewrite substring_take_drop.
  by replace (i + n - i) with n by lia.
Qed.

(** ** Row updates on a square grid *)

Lemma fmap_u1_chars s : u1 <$> chars s = chars s.
Proof. induction s as [|a s IH]; [done|]. cbn [chars fmap list_fmap u1]. by f_equal. Qed.

(** When the grid is square the row count and the column count agree, and
    the update takes exactly the strings of that length; any other string
    leaves the grid as it was. *)
Lemma update_gridline_from_string_square g row s n :
  rows g = Z.of_nat n → cols g = Z.of_nat n → shape (grid g) n n →
  0 ≤ row < Z.of_nat n →
  (len s = cols g →
     ∃ g', update_gridline_from_string g row s = Ok (g', [])
           ∧ grid g' = <[Z.to_nat row := chars s]> (grid g))
  ∧ (len s ≠ cols g →
     update_gridline_from_string g row s
     = Ok (g, ["Your string of letters doesn't really fit into the grid"%string])).
Proof.
  intros Hr Hc [Hlen Hl] Hrow. unfold update_gridline_from_string. split; intros Hs.
  - rewrite bool_decide_eq_true_2 by lia. unfold np_setrow.
    rewrite np_index_nonneg by lia. simpl.
    destruct (lookup_lt_is_Some_2 (grid g) (Z.to_nat row)) as [line Hline]; [lia|].
    rewrite Hline. pose proof (Forall_lookup_1 _ _ _ _ Hl Hline) as Hll. simpl in Hll.
    rewrite bool_decide_eq_true_2
      by (rewrite length_chars; unfold len in Hs; lia).
    rewrite fmap_u1_chars. simpl. eexists. split; reflexivity.
  - by rewrite bool_decide_eq_false_2 by lia.
Qed.

(** * Further properties of the program *)

(** ** Letters and ordinal endings *)

Lemma is_letter_eng_char_eq (a : ascii) :
  is_letter_eng (String a EmptyString)
  = let n := nat_of_ascii a in
    ((65 <=? n) && (n <=? 90) || (97 <=? n) && (n <=? 122))%nat.
Proof. destruct a as [[] [] [] [] [] [] [] []]; vm_compute; reflexivity. Qed.

(** X1: on a single character [is_letter_eng] answers [True] exactly for the
    fifty-two letters A-Z and a-z. *)
Theorem is_letter_eng_char (a : ascii) :
  is_letter_eng (String a EmptyString) = true ↔ ascii_letter a.
Proof.
  rewrite is_letter_eng_char_eq. unfold ascii_letter. cbv zeta.
  rewrite orb_true_iff, !andb_true_iff, !Nat.leb_le. done.
Qed.










(** X3: the ending depends on the last two digits only: "th" for 11, 12
    and 13 (in every hundred), otherwise "st", "nd", "rd" for a last digit
    1, 2, 3 and "th" for any other; negative numbers follow Python's
    non-negative remainder. *)
Theorem ordinalending_spec (n : Z) :
  ordinalending n = ordinalending (n mod 100)
  ∧ ordinalending n
    = (if bool_decide (n mod 100 = 11 ∨ n mod 100 = 12 ∨ n mod 100 = 13) then "th"
       else if bool_decide (n mod 10 = 1) then "st"
       else if bool_decide (n mod 10 = 2) then "nd"
       else if bool_decide (n mod 10 = 3) then "rd"
       else "th")%string.
Proof.
  assert ((n mod 100) mod 10 = n mod 10) as H10.
  { rewrite (Z.mod_eq n 100) by lia.
    replace (n - 100 * (n / 100)) with (n + (- (10 * (n / 100))) * 10) by lia.
    apply Z_mod_plus_full. }
  assert ((n mod 100) mod 100 = n mod 100) as H100 by (apply Z.mod_mod; lia).
  unfold ordinalending. rewrite H10, H100. split; [done|].
  repeat case_bool_decide; try done; exfalso; Z.div_mod_to_equations; lia.
Qed.

(** ** Reading a positive number *)

Lemma read_posint_loop_returns int fuel text maxct defvalue ct stdin out :
  (1 ≤ fuel)%nat → maxct - ct ≤ Z.of_nat fuel →
  ∃ number k out',
    read_posint_loop int fuel text maxct defvalue ct stdin out
    = Some (number, drop k stdin, out')
    ∧ (k ≤ fuel)%nat
    ∧ (number = defvalue
       ∨ 1 ≤ number ∧ ∃ line, line ∈ stdin ∧ int line = Some number).
Proof.
  revert ct stdin out. induction fuel as [|fuel IH]; intros ct stdin out Hf Hct; [lia|].
  cbn [read_posint_loop].
  assert (∀ stdin' out1 line,
            stdin = line :: stdin' ∨ (stdin = [] ∧ stdin' = []) →
            ¬ ct + 1 >= maxct →
            ∃ number k out',
              read_posint_loop int fuel text maxct defvalue (ct + 1) stdin' out1
              = Some (number, drop k stdin, out')
              ∧ (k ≤ S fuel)%nat
              ∧ (number = defvalue
                 ∨ 1 ≤ number ∧ ∃ line, line ∈ stdin ∧ int line = Some number))
    as Hrec.
  { intros stdin' out1 line Hs Hlt.
    destruct (IH (ct + 1) stdin' out1) as (number & k & out' & Heq & Hk & Hn); [lia|lia|].
    destruct Hs as [->|[-> ->]].
    - exists number, (S k), out'. split; [done|]. split; [lia|].
      destruct Hn as [Hn|(Hn & l & Hl & Hi)]; [by left|right].
      split; [done|]. exists l. split; [|done]. apply elem_of_cons. by right.
    - exists number, k, out'. split; [exact Heq|]. split; [lia|exact Hn]. }
  destruct stdin as [|line stdin']; cbn [int_input].
  - case_bool_decide as Hge.
    + exists defvalue, 0%nat, (((out ++ [Prompt text]) ++ [StopNow; WillUse defvalue])).
      split; [done|]. split; [lia|]. by left.
    + apply (Hrec [] _ ""%string); [by right|done].
  - destruct (int line) as [number|] eqn:Hint.
    + case_bool_decide as Hsmall.
      * case_bool_decide as Hge.
        -- exists defvalue, 1%nat, (((out ++ [Prompt text]) ++ [StopNow; WillUse defvalue])).
           split; [done|]. split; [lia|]. by left.
        -- apply (Hrec stdin' _ line); [by left|done].
      * exists number, 1%nat, (out ++ [Prompt text]). split; [done|]. split; [lia|].
        right. split; [lia|]. exists line. split; [apply elem_of_cons; by left|done].
    + case_bool_decide as Hge.
      * exists defvalue, 1%nat, (((out ++ [Prompt text]) ++ [StopNow; WillUse defvalue])).
        split; [done|]. split; [lia|]. by left.
      * apply (Hrec stdin' _ line); [by left|done].
Qed.

(** X4: whatever is typed, and even when the input ends, the loop stops: it
    returns after at most max(1, maxct) attempts, having read at most that
    many lines, and the number it returns is either the default value or a
    positive number that one of the lines gave. *)
Theorem read_posint_from_cmdline_withct_returns
    (int : string → option Z) (text : string) (maxct defvalue : Z)
    (stdin : list string) :
  ∃ number k out,
    read_posint_from_cmdline_withct int text maxct defvalue stdin
    = Some (number, drop k stdin, out)
    ∧ Z.of_nat k ≤ Z.max 1 maxct
    ∧ (number = defvalue
       ∨ 1 ≤ number ∧ ∃ line, line ∈ stdin ∧ int line = Some number).
Proof.
  unfold read_posint_from_cmdline_withct.
  destruct (read_posint_loop_returns int (Z.to_nat (Z.max 1 maxct)) text maxct
              defvalue 0 stdin []) as (number & k & out & Heq & Hk & Hn); [lia|lia|].
  exists number, k, out. split; [done|]. split; [lia|done].
Qed.

Lemma read_posint_loop_first_valid int fuel text maxct defvalue ct bad good rest out number :
  Forall (invalid_line int) bad → int good = Some number → 1 ≤ number →
  (length bad < fuel)%nat → (bad = [] ∨ ct + Z.of_nat (length bad) < maxct) →
  ∃ out',
    read_posint_loop int fuel text maxct defvalue ct (bad ++ good :: rest) out
    = Some (number, rest, out')
    ∧ (StopNow ∈ out' → StopNow ∈ out).
Proof.
  intros Hbad Hgood Hpos. revert fuel ct out.
  induction Hbad as [|b bad Hb Hbad IH]; intros fuel ct out Hfuel Hct.
  - destruct fuel as [|fuel]; [simpl in Hfuel; lia|].
    cbn [read_posint_loop app int_input]. rewrite Hgood.
    rewrite bool_decide_eq_false_2 by lia.
    eexists. split; [reflexivity|].
    intros H. apply elem_of_app in H as [H|H]; [done|].
    apply list_elem_of_singleton in H. discriminate H.
  - destruct fuel as [|fuel]; [simpl in Hfuel; lia|].
    destruct Hct as [Hct|Hct]; [discriminate Hct|].
    simpl in Hfuel, Hct.
    destruct (IH fuel (ct + 1) ((out ++ [Prompt text]) ++ [WholeNumber]))
      as (out1 & Heq1 & Hout1); [lia|right; lia|].
    destruct (IH fuel (ct + 1) ((out ++ [Prompt text]) ++ [NotGood]))
      as (out2 & Heq2 & Hout2); [lia|right; lia|].
    assert (∀ x : printed, x ≠ StopNow → StopNow ∈ (out ++ [Prompt text]) ++ [x]
                           → StopNow ∈ out) as Hin.
    { intros x Hx H. apply elem_of_app in H as [H|H].
      - apply elem_of_app in H as [H|H]; [done|].
        apply list_elem_of_singleton in H. discriminate H.
      - apply list_elem_of_singleton in H. by subst x. }
    cbn [read_posint_loop app int_input]. unfold invalid_line in Hb.
    destruct (int b) as [nb|].
    + rewrite bool_decide_eq_true_2 by done. rewrite bool_decide_eq_false_2 by lia.
      exists out2. split; [done|]. intros H. by apply (Hin NotGood), Hout2.
    + rewrite bool_decide_eq_false_2 by lia.
      exists out1. split; [done|]. intros H. by apply (Hin WholeNumber), Hout1.
Qed.

(** X5: the first line that gives a positive number is the answer, provided
    it comes within the allowed attempts: the lines before it are used up,
    the lines after it are left unread, and the stop message is not
    printed. *)
Theorem read_posint_from_cmdline_withct_first_valid
    (int : string → option Z) (text : string) (maxct defvalue : Z)
    (bad : list string) (good : string) (rest : list string) (number : Z) :
  Forall (invalid_line int) bad → int good = Some number → 1 ≤ number →
  Z.of_nat (length bad) < Z.max 1 maxct →
  ∃ out,
    read_posint_from_cmdline_withct int text maxct defvalue (bad ++ good :: rest)
    = Some (number, rest, out)
    ∧ StopNow ∉ out.
Proof.
  intros Hbad Hgood Hpos Hlen. unfold read_posint_from_cmdline_withct.
  destruct (read_posint_loop_first_valid int (Z.to_nat (Z.max 1 maxct)) text maxct
              defvalue 0 bad good rest [] number Hbad Hgood Hpos)
    as (out & Heq & Hout); [lia| |].
  - destruct bad as [|b bad]; [by left|right]. simpl in *. lia.
  - exists out. split; [done|]. intros H. apply Hout in H. by apply elem_of_nil in H.
Qed.

Lemma read_posint_loop_gives_up int fuel text maxct defvalue ct stdin out :
  Z.of_nat fuel = Z.max 1 (maxct - ct) →
  Forall (invalid_line int) (take fuel stdin) →
  ∃ out',
    read_posint_loop int fuel text maxct defvalue ct stdin out
    = Some (defvalue, drop fuel stdin, out' ++ [StopNow; WillUse defvalue]).
Proof.
  revert ct stdin out. induction fuel as [|fuel IH]; intros ct stdin out Hfuel Hbad; [lia|].
  cbn [read_posint_loop].
  destruct stdin as [|line stdin']; cbn [int_input].
  - case_bool_decide as Hge.
    + by eexists.
    + destruct (IH (ct + 1) [] ((out ++ [Prompt text]) ++ [WholeNumber]))
        as (out' & Heq); [lia|by rewrite take_nil|].
      rewrite Heq, drop_nil. by eexists.
  - cbn [take drop] in *. apply Forall_cons in Hbad as [Hline Hbad].
    unfold invalid_line in Hline.
    assert (ct + 1 >= maxct → fuel = 0%nat) as Hlast by lia.
    destruct (int line) as [number|].
    + rewrite bool_decide_eq_true_2 by done. case_bool_decide as Hge.
      * rewrite (Hlast Hge), drop_0. by eexists.
      * destruct (IH (ct + 1) stdin' ((out ++ [Prompt text]) ++ [NotGood]))
          as (out' & Heq); [lia|done|]. rewrite Heq. by eexists.
    + case_bool_decide as Hge.
      * rewrite (Hlast Hge), drop_0. by eexists.
      * destruct (IH (ct + 1) stdin' ((out ++ [Prompt text]) ++ [WholeNumber]))
          as (out' & Heq); [lia|done|]. rewrite Heq. by eexists.
Qed.

(** X6: when none of the first max(1, maxct) attempts gives a positive
    number (a line that is no number, a number below 1, or no line at all
    because the input has ended), the default value is returned, as it is,
    after the stop message; exactly those lines are used up. *)
Theorem read_posint_from_cmdline_withct_gives_up
    (int : string → option Z) (text : string) (maxct defvalue : Z)
    (stdin : list string) :
  Forall (invalid_line int) (take (Z.to_nat (Z.max 1 maxct)) stdin) →
  ∃ out,
    read_posint_from_cmdline_withct int text maxct defvalue stdin
    = Some (defvalue, drop (Z.to_nat (Z.max 1 maxct)) stdin,
            out ++ [StopNow; WillUse defvalue]).
Proof.
  intros Hbad. unfold read_posint_from_cmdline_withct.
  apply read_posint_loop_gives_up; [lia|done].
Qed.

Lemma read_posint_from_cmdline_withct_first_valid_witness :
  ∃ out,
    read_posint_from_cmdline_withct int_digits "number of rows: " 3 4
      (["x"%string; "0"%string] ++ "7"%string :: ["abcdefg"%string])
    = Some (7, ["abcdefg"%string], out)
    ∧ StopNow ∉ out.
Proof.
  apply (read_posint_from_cmdline_withct_first_valid int_digits "number of rows: " 3 4
           ["x"; "0"]%string "7" ["abcdefg"%string] 7).
  - repeat constructor.
  - reflexivity.
  - lia.
  - simpl. lia.
Defined.

Lemma read_posint_from_cmdline_withct_gives_up_witness :
  ∃ out,
    read_posint_from_cmdline_withct int_digits "number of rows: " 3 4 ["x"; "0"]%string
    = Some (4, drop (Z.to_nat (Z.max 1 3)) ["x"; "0"]%string,
            out ++ [StopNow; WillUse 4]).
Proof.
  apply (read_posint_from_cmdline_withct_gives_up int_digits "number of rows: " 3 4
           ["x"; "0"]%string).
  repeat constructor.
Defined.

(** ** Reading and writing single cells *)






Lemma np_index_Raise size i e : np_index size i = Raise e → e = IndexError.
Proof. unfold np_index. repeat case_bool_decide; congruence. Qed.

(** X8: when (row, col) is no cell of the array, [get_element] raises
    [IndexError], while [update_grid_onefield] swallows the exception: it
    leaves the grid as it was and prints its message. *)
Theorem update_grid_onefield_out_of_range
    (g : WordGrid) (row col : Z) (letter : string) (e : exn) :
  get_element g row col = Raise e →
  e = IndexError
  ∧ update_grid_onefield g row col letter = (g, ["it should be 1 letter"%string]).
Proof.
  unfold get_element, np_getitem, update_grid_onefield, np_setitem.
  destruct (np_index (length (grid g)) row) as [i|e1] eqn:Hi; simpl.
  - destruct (grid g !! i) as [line|] eqn:Hline.
    + destruct (np_index (length line) col) as [j|e2] eqn:Hj; simpl.
      * apply np_index_Ok in Hj.
        destruct (lookup_lt_is_Some_2 line j Hj) as [x ->]. done.
      * intros [= <-]. split; [by eapply np_index_Raise|done].
    + intros [= <-]. done.
  - intros [= <-]. split; [by eapply np_index_Raise|done].
Qed.

Lemma update_grid_onefield_out_of_range_witness :
  IndexError = IndexError
  ∧ update_grid_onefield grid_abcd 2 0 "x" = (grid_abcd, ["it should be 1 letter"%string]).
Proof. apply (update_grid_onefield_out_of_range grid_abcd 2 0 "x" IndexError). reflexivity. Defined.

Lemma np_index_is_Ok size i :
  is_Ok (np_index size i) ↔ - Z.of_nat size ≤ i < Z.of_nat size.
Proof.
  unfold np_index, is_Ok. repeat case_bool_decide; split;
    try (intros _; lia); try (intros _; by eexists);
    try (intros [k Hk]; discriminate Hk); intros; lia.
Qed.

Lemma np_index_wrap size i :
  - Z.of_nat size ≤ i < 0 → np_index size i = np_index size (i + Z.of_nat size).
Proof.
  intros Hi. unfold np_index.
  rewrite (bool_decide_eq_false_2 (0 ≤ i < _)) by lia.
  rewrite (bool_decide_eq_true_2 (- _ ≤ i < 0)) by lia.
  by rewrite (bool_decide_eq_true_2 (0 ≤ i + _ < _)) by lia.
Qed.

(** X9: on an array of [nr] rows of [nc] cells [get_element] returns exactly
    for -nr <= row < nr and -nc <= col < nc, it raises [IndexError] and
    nothing else otherwise, and a negative index counts from the end. *)
Theorem get_element_bounds (g : WordGrid) (nr nc : nat) (row col : Z) :
  shape (grid g) nr nc →
  (is_Ok (get_element g row col)
   ↔ - Z.of_nat nr ≤ row < Z.of_nat nr ∧ - Z.of_nat nc ≤ col < Z.of_nat nc)
  ∧ (∀ e, get_element g row col = Raise e → e = IndexError)
  ∧ (- Z.of_nat nr ≤ row < 0 →
     get_element g row col = get_element g (row + Z.of_nat nr) col)
  ∧ (- Z.of_nat nc ≤ col < 0 →
     get_element g row col = get_element g row (col + Z.of_nat nc)).
Proof.
  intros [Hlen Hlines]. unfold get_element, np_getitem. rewrite Hlen.
  assert (∀ i line, grid g !! i = Some line → length line = nc) as Hnc.
  { intros i line Hi. by apply (Forall_lookup_1 _ _ _ _ Hlines Hi). }
  split; [|split; [|split]].
  - pose proof (np_index_is_Ok nr row) as Hrow.
    destruct (np_index nr row) as [i|e] eqn:Hi; simpl.
    + pose proof (np_index_Ok _ _ _ Hi) as Hlt.
      destruct (lookup_lt_is_Some_2 (grid g) i) as [line Hline]; [lia|].
      rewrite Hline, (Hnc _ _ Hline).
      pose proof (np_index_is_Ok nc col) as Hcol.
      destruct (np_index nc col) as [j|e] eqn:Hj; simpl.
      * pose proof (np_index_Ok _ _ _ Hj) as Hltj.
        destruct (lookup_lt_is_Some_2 line j) as [x Hx]; [rewrite (Hnc _ _ Hline); lia|].
        rewrite Hx. split; [intros _|intros _; by eexists].
        split; [apply Hrow|apply Hcol]; by eexists.
      * split; [intros [x Hx]; discriminate Hx|].
        intros [_ Hc]. apply Hcol in Hc as [j Hj']. discriminate Hj'.
    + split; [intros [x Hx]; discriminate Hx|].
      intros [Hr _]. apply Hrow in Hr as [i Hi']. discriminate Hi'.
  - intros e. destruct (np_index nr row) as [i|e1] eqn:Hi; simpl.
    + destruct (grid g !! i) as [line|]; [|congruence].
      destruct (np_index (length line) col) as [j|e2] eqn:Hj; simpl.
      * destruct (line !! j); congruence.
      * intros [= <-]. by eapply np_index_Raise.
    + intros [= <-]. by eapply np_index_Raise.
  - intros Hr. by rewrite (np_index_wrap nr row Hr).
  - intros Hc. destruct (np_index nr row) as [i|e] eqn:Hi; simpl; [|done].
    destruct (grid g !! i) as [line|] eqn:Hline; [|done].
    rewrite (Hnc _ _ Hline). by rewrite (np_index_wrap nc col Hc).
Qed.

Lemma get_element_bounds_witness :
  (is_Ok (get_element grid_abcd (-1) (-2))
   ↔ - Z.of_nat 2 ≤ -1 < Z.of_nat 2 ∧ - Z.of_nat 2 ≤ -2 < Z.of_nat 2)
  ∧ (∀ e, get_element grid_abcd (-1) (-2) = Raise e → e = IndexError)
  ∧ (- Z.of_nat 2 ≤ -1 < 0 →
     get_element grid_abcd (-1) (-2) = get_element grid_abcd (-1 + Z.of_nat 2) (-2))
  ∧ (- Z.of_nat 2 ≤ -2 < 0 →
     get_element grid_abcd (-1) (-2) = get_element grid_abcd (-1) (-2 + Z.of_nat 2)).
Proof.
  apply (get_element_bounds grid_abcd 2 2 (-1) (-2)).
  apply (bool_decide_unpack _). vm_compute. reflexivity.
Defined.

(** ** Row updates: every outcome *)





(** X11: [update_gridline_from_list] does to a list what
    [update_gridline_from_string] does to the string of its letters: for a
    string [s], the list [list(s)] gives the same grid or the same
    exception; only the message of a refusal differs. *)
Theorem update_gridline_from_list_chars (g : WordGrid) (row : Z) (s : string) :
  match update_gridline_from_string g row s,
        update_gridline_from_list g row (chars s) with
  | Ok (g1, out1), Ok (g2, out2) =>
      g1 = g2 ∧ (out1 = [] ↔ out2 = []) ∧ (out1 = [] ↔ len s = rows g)
  | Raise e1, Raise e2 => e1 = e2 ∧ len s = rows g
  | _, _ => False
  end.
Proof.
  unfold update_gridline_from_string, update_gridline_from_list, len.
  rewrite length_chars. case_bool_decide as Hs.
  - destruct (np_setrow (grid g) row (chars s)) as [a|e]; simpl; [|done].
    repeat split; done.
  - repeat split; try done; intros H; discriminate H.
Qed.

(** ** What every update keeps *)

Lemma fill_grid_from_cmdline_fold stdin g :
  fill_grid_from_cmdline stdin g
  = foldl fill_step (Ok (g, stdin)) (range (rows g)) ≫= λ '(g, _), Ok g.
Proof. reflexivity. Qed.

Lemma length_u1 s : (String.length (u1 s) ≤ 1)%nat.
Proof. destruct s; simpl; lia. Qed.

Lemma np_setitem_cells a row col v a' :
  cells_u1 a → np_setitem a row col v = Ok a' → cells_u1 a'.
Proof.
  intros Hc. unfold np_setitem.
  destruct (np_index (length a) row) as [k|]; simpl; [|done].
  destruct (a !! k) as [line|] eqn:El; [|done].
  destruct (np_index (length line) col) as [j|]; simpl; [|done].
  intros [= <-]. apply Forall_insert; [done|].
  apply Forall_insert; [|apply length_u1].
  by apply (Forall_lookup_1 _ _ _ _ Hc El).
Qed.

Lemma np_setrow_cells a row vals a' :
  cells_u1 a → np_setrow a row vals = Ok a' → cells_u1 a'.
Proof.
  intros Hc. unfold np_setrow.
  destruct (np_index (length a) row) as [k|]; simpl; [|done].
  destruct (a !! k) as [line|] eqn:El; [|done].
  case_bool_decide.
  - intros [= <-]. apply Forall_insert; [done|].
    apply Forall_fmap, Forall_forall. intros x _. apply length_u1.
  - destruct vals as [|v [|? ?]]; try done.
    intros [= <-]. apply Forall_insert; [done|].
    apply Forall_fmap, Forall_forall. intros x _. apply length_u1.
Qed.

Lemma update_gridline_from_string_frame nr nc g row s g' out :
  same_frame nr nc g g → update_gridline_from_string g row s = Ok (g', out) →
  same_frame nr nc g g'.
Proof.
  intros (Hs & Hc & _ & _) Hup.
  destruct (update_gridline_from_string_shape g row s g' out nr nc Hs Hup) as (Hs' & Hr & Hco).
  split; [done|]. split; [|done].
  unfold update_gridline_from_string in Hup. case_bool_decide.
  - destruct (np_setrow (grid g) row (chars s)) as [a|] eqn:E; simpl in Hup; [|done].
    injection Hup as <- <-. by eapply np_setrow_cells.
  - by injection Hup as <- <-.
Qed.

Lemma foldl_fill_step_frame nr nc g0 l acc :
  (∀ g stdin, acc = Ok (g, stdin) → same_frame nr nc g0 g) →
  ∀ g stdin, foldl fill_step acc l = Ok (g, stdin) → same_frame nr nc g0 g.
Proof.
  revert acc. induction l as [|i l IH]; intros acc Hacc; [done|].
  simpl. apply IH. intros g stdin. unfold fill_step.
  destruct acc as [[g1 stdin1]|e]; simpl; [|done].
  destruct stdin1 as [|line stdin1]; [done|].
  destruct (update_gridline_from_string g1 i line) as [[g2 out]|e] eqn:E; simpl; [|done].
  intros [= <- <-]. destruct (Hacc g1 (line :: stdin1) eq_refl) as (Hs & Hc & Hr & Hco).
  destruct (update_gridline_from_string_frame nr nc g1 i line g2 out) as (Hs2 & Hc2 & Hr2 & Hco2);
    [split; [done|split; [done|split; reflexivity]]|done|].
  split; [done|]. split; [done|]. split; congruence.
Qed.

(** X12: no operation on a grid changes the shape of its array or the
    recorded [rows] and [cols], and the cells stay strings of at most one
    character: this holds for [update_grid_onefield], for the two row
    updates whenever they return, and for [fill_grid_from_cmdline]. *)
Theorem updates_keep_frame (g : WordGrid) (nr nc : nat) :
  shape (grid g) nr nc → cells_u1 (grid g) →
  (∀ row col letter, same_frame nr nc g (update_grid_onefield g row col letter).1)
  ∧ (∀ row s g' out,
       update_gridline_from_string g row s = Ok (g', out) → same_frame nr nc g g')
  ∧ (∀ row lst g' out,
       update_gridline_from_list g row lst = Ok (g', out) → same_frame nr nc g g')
  ∧ (∀ stdin g', fill_grid_from_cmdline stdin g = Ok g' → same_frame nr nc g g').
Proof.
  intros Hs Hc.
  assert (same_frame nr nc g g) as Hg
    by (split; [done|split; [done|split; reflexivity]]).
  split; [|split; [|split]].
  - intros row col letter.
    destruct (update_grid_onefield_shape g row col letter nr nc Hs) as (Hs' & Hr & Hco).
    split; [done|]. split; [|done].
    unfold update_grid_onefield.
    destruct (np_setitem (grid g) row col letter) as [a|] eqn:E; simpl; [|done].
    by eapply np_setitem_cells.
  - intros row s g' out. by apply update_gridline_from_string_frame.
  - intros row lst g' out Hup.
    destruct (update_gridline_from_list_shape g row lst g' out nr nc Hs Hup) as (Hs' & Hr & Hco).
    split; [done|]. split; [|done].
    unfold update_gridline_from_list in Hup. case_bool_decide.
    + destruct (np_setrow (grid g) row lst) as [a|] eqn:E; simpl in Hup; [|done].
      injection Hup as <- <-. by eapply np_setrow_cells.
    + by injection Hup as <- <-.
  - intros stdin g'. rewrite fill_grid_from_cmdline_fold.
    destruct (foldl fill_step (Ok (g, stdin)) (range (rows g))) as [[g1 stdin1]|e] eqn:E;
      simpl; [|done].
    intros [= <-]. eapply foldl_fill_step_frame; [|exact E].
    by intros g2 stdin2 [= <- <-].
Qed.

Lemma updates_keep_frame_witness :
  (∀ row col letter, same_frame 2 2 grid_abcd (update_grid_onefield grid_abcd row col letter).1)
  ∧ (∀ row s g' out,
       update_gridline_from_string grid_abcd row s = Ok (g', out) → same_frame 2 2 grid_abcd g')
  ∧ (∀ row lst g' out,
       update_gridline_from_list grid_abcd row lst = Ok (g', out) → same_frame 2 2 grid_abcd g')
  ∧ (∀ stdin g', fill_grid_from_cmdline stdin grid_abcd = Ok g' → same_frame 2 2 grid_abcd g').
Proof.
  apply (updates_keep_frame grid_abcd 2 2).
  - apply (bool_decide_unpack _). vm_compute. reflexivity.
  - repeat constructor.
Defined.

(** ** Filling a square grid *)

Lemma range_S k : range (Z.of_nat (S k)) = range (Z.of_nat k) ++ [Z.of_nat k].
Proof. unfold range. rewrite !Nat2Z.id, seq_S, fmap_app. done. Qed.

Lemma foldl_fill_step_Raise e l : foldl fill_step (Raise e) l = Raise e.
Proof. induction l as [|i l IH]; [done|]. simpl. exact IH. Qed.

(** After the first [k] rounds on a square grid: the first [k] lines are
    used up, each of the first [k] rows holds its line if the line has the
    right length and what it held before if not, the other rows are
    untouched. *)
Lemma fill_prefix g n stdin k :
  rows g = Z.of_nat n → cols g = Z.of_nat n → shape (grid g) n n →
  (k ≤ n)%nat → (k ≤ length stdin)%nat →
  ∃ gk, foldl fill_step (Ok (g, stdin)) (range (Z.of_nat k)) = Ok (gk, drop k stdin)
    ∧ rows gk = rows g ∧ cols gk = cols g ∧ shape (grid gk) n n
    ∧ (∀ i, (k ≤ i)%nat → grid gk !! i = grid g !! i)
    ∧ (∀ i line old, (i < k)%nat → stdin !! i = Some line → grid g !! i = Some old →
         grid gk !! i
         = Some (if bool_decide (len line = Z.of_nat n) then chars line else old)).
Proof.
  intros Hr Hc Hs. induction k as [|k IH]; intros Hk Hlen.
  - exists g. repeat split; try done; try apply Hs. intros i line old Hi. lia.
  - destruct IH as (gk & Heq & Hrk & Hck & Hsk & Hrest & Hdone); [lia|lia|].
    rewrite range_S, foldl_app, Heq.
    destruct (lookup_lt_is_Some_2 stdin k) as [line Hline]; [lia|].
    rewrite (drop_S _ _ _ Hline). cbn [foldl fill_step mbind result_bind].
    destruct (update_gridline_from_string_square gk (Z.of_nat k) line n)
      as [Hfit Hmis]; [congruence|congruence|done|lia|].
    destruct (decide (len line = cols gk)) as [Hl|Hl].
    + destruct (Hfit Hl) as (g' & Hup & Hgrid). rewrite Hup. simpl.
      destruct (update_gridline_from_string_shape gk (Z.of_nat k) line g' [] n n Hsk Hup)
        as (Hs' & Hr' & Hc').
      rewrite Nat2Z.id in Hgrid.
      exists g'. split; [done|]. split; [congruence|]. split; [congruence|].
      split; [done|]. rewrite Hgrid. split.
      * intros i Hi. rewrite list_lookup_insert_ne by lia. apply Hrest. lia.
      * intros i line' old Hi Hline' Hold.
        destruct (decide (i = k)) as [->|Hne].
        -- rewrite list_lookup_insert_eq by (destruct Hsk as [-> _]; lia).
           rewrite Hline in Hline'. injection Hline' as <-.
           by rewrite bool_decide_eq_true_2 by congruence.
        -- rewrite list_lookup_insert_ne by done. apply Hdone; [lia|done|done].
    + rewrite (Hmis Hl). simpl.
      exists gk. split; [done|]. split; [done|]. split; [done|]. split; [done|]. split.
      * intros i Hi. apply Hrest. lia.
      * intros i line' old Hi Hline' Hold.
        destruct (decide (i = k)) as [->|Hne].
        -- rewrite Hline in Hline'. injection Hline' as <-.
           rewrite bool_decide_eq_false_2 by congruence.
           rewrite Hrest by lia. done.
        -- apply Hdone; [lia|done|done].
Qed.








Lemma range_app k m :
  range (Z.of_nat (k + m)) = range (Z.of_nat k) ++ (Z.of_nat <$> seq k m).
Proof. unfold range. rewrite !Nat2Z.id, seq_app, fmap_app. done. Qed.

(** X15: with fewer lines than rows the filling of a square grid ends in
    the [EOFError] of [input], after the lines there are have been taken. *)
Theorem fill_grid_from_cmdline_eof (g : WordGrid) (n : nat) (stdin : list string) :
  rows g = Z.of_nat n → cols g = Z.of_nat n → shape (grid g) n n →
  (length stdin < n)%nat →
  fill_grid_from_cmdline stdin g = Raise EOFError.
Proof.
  intros Hr Hc Hs Hlen.
  destruct (fill_prefix g n stdin (length stdin) Hr Hc Hs) as (gk & Heq & _); [lia|lia|].
  rewrite fill_grid_from_cmdline_fold, Hr.
  replace n with (length stdin + S (n - S (length stdin)))%nat by lia.
  rewrite range_app, foldl_app, Heq, drop_all. cbn [seq fmap list_fmap foldl fill_step].
  simpl. by rewrite foldl_fill_step_Raise.
Qed.

Lemma fill_grid_from_cmdline_eof_witness :
  fill_grid_from_cmdline ["wx"%string] grid_abcd = Raise EOFError.
Proof.
  apply (fill_grid_from_cmdline_eof grid_abcd 2 ["wx"%string]).
  - reflexivity.
  - reflexivity.
  - apply (bool_decide_unpack _). vm_compute. reflexivity.
  - simpl. lia.
Defined.

(** ** Building the grid from the command line *)




(** ** Adjacency and the set of all trigrams *)

(** X18: adjacency is symmetric and no cell is its own neighbour: for two
    in-bounds cells, the second is listed among the neighbours of the first
    exactly when the first is listed among the neighbours of the second. *)
Theorem get_neighbours_index_symmetric (g : WordGrid) (p q : Z * Z) :
  is_valid_index g p.1 p.2 = true → is_valid_index g q.1 q.2 = true →
  (q ∈ get_neighbours_index g p.1 p.2 ↔ p ∈ get_neighbours_index g q.1 q.2)
  ∧ p ∉ get_neighbours_index g p.1 p.2.
Proof.
  intros Hp Hq. rewrite !elem_of_get_neighbours_index.
  destruct p as [pr pc], q as [qr qc]. unfold chebyshev. simpl in *.
  split; [split; intros [_ Hd]; (split; [done|lia])|].
  intros [_ Hd]. lia.
Qed.

Lemma get_neighbours_index_symmetric_witness :
  ((1, 1) ∈ get_neighbours_index grid_abcd (0, 0).1 (0, 0).2
   ↔ (0, 0) ∈ get_neighbours_index grid_abcd (1, 1).1 (1, 1).2)
  ∧ (0, 0) ∉ get_neighbours_index grid_abcd (0, 0).1 (0, 0).2.
Proof. apply (get_neighbours_index_symmetric grid_abcd (0, 0) (1, 1)); reflexivity. Defined.

Lemma mapM_Ok_each {A B} (f : A → result B) l ys x :
  mapM f l = Ok ys → x ∈ l → ∃ y, f x = Ok y ∧ y ∈ ys.
Proof.
  revert ys. induction l as [|x0 l IH]; intros ys Hm Hx.
  - by apply elem_of_nil in Hx.
  - rewrite mapM_cons in Hm.
    apply bind_Ok in Hm as (y0 & Hy0 & Hm). apply bind_Ok in Hm as (k & Hk & [= <-]).
    apply elem_of_cons in Hx as [->|Hx].
    + exists y0. split; [done|]. apply elem_of_cons. by left.
    + destruct (IH k Hk Hx) as (y & Hy & Hin). exists y. split; [done|].
      apply elem_of_cons. by right.
Qed.


(** The set of [get_all_threegrams] is the union of the sets of
    [get_two_neighbours] over the valid cells. *)
Lemma get_all_threegrams_union g allgrams t :
  get_all_threegrams g = Ok allgrams →
  t ∈ allgrams ↔ ∃ r c grams, is_valid_index g r c = true
                              ∧ get_two_neighbours g r c = Ok grams ∧ t ∈ grams.
Proof.
  unfold get_all_threegrams. intros H.
  apply bind_Ok in H as (nested & Hm & [= <-]).
  rewrite elem_of_list_to_set, elem_of_concat. split.
  - intros (rowgrams & Hrow & Ht). apply elem_of_concat in Hrow as (perrow & Hper & Hrow).
    apply (mapM_Ok_elem _ _ _ perrow Hm) in Hper as (r & Hr & Hinner).
    apply (mapM_Ok_elem _ _ _ rowgrams Hinner) in Hrow as (c & Hc & Hg).
    apply bind_Ok in Hg as (grams & Hgrams & [= <-]).
    apply elem_of_range in Hr, Hc. exists r, c, grams.
    split; [apply bool_decide_eq_true; lia|]. split; [done|].
    by apply elem_of_elements in Ht.
  - intros (r & c & grams & Hv & Hgrams & Ht). apply bool_decide_eq_true in Hv.
    destruct (mapM_Ok_each _ _ _ r Hm) as (perrow & Hinner & Hper);
      [apply elem_of_range; lia|].
    destruct (mapM_Ok_each _ _ _ c Hinner) as (rowgrams & Hg & Hrow);
      [apply elem_of_range; lia|].
    rewrite Hgrams in Hg. simpl in Hg. injection Hg as <-.
    exists (elements grams). split; [|by apply elem_of_elements].
    apply elem_of_concat. by exists perrow.
Qed.

Lemma get_all_threegrams_paths g :
  covers g →
  ∃ allgrams, get_all_threegrams g = Ok allgrams
    ∧ ∀ t, t ∈ allgrams ↔
        ∃ r c n1 n2 e0 e1 e2,
          is_valid_index g r c = true ∧ two_step_path g r c n1 n2 e0 e1 e2
          ∧ t = (e0 +:+ e1) +:+ e2.
Proof.
  intros Hcov. destruct (get_all_threegrams_is_Ok g Hcov) as [allgrams Hall].
  exists allgrams. split; [done|]. intros t.
  rewrite (get_all_threegrams_union g allgrams t Hall). split.
  - intros (r & c & grams & Hv & Hgrams & Ht).
    apply (get_two_neighbours_elem g r c grams t Hgrams) in Ht
      as (n1 & n2 & e0 & e1 & e2 & Hpath & ->).
    by exists r, c, n1, n2, e0, e1, e2.
  - intros (r & c & n1 & n2 & e0 & e1 & e2 & Hv & Hpath & ->).
    destruct (get_two_neighbours_is_Ok g Hcov r c Hv) as [grams Hgrams].
    exists r, c, grams. split; [done|]. split; [done|].
    apply (get_two_neighbours_elem g r c grams _ Hgrams).
    by exists n1, n2, e0, e1, e2.
Qed.

(** X19: when the array covers the logical grid, [get_all_threegrams]
    returns, and its set holds exactly the strings read along the paths
    start, neighbour, neighbour of the neighbour (other than the start),
    for every valid start cell. *)
Theorem get_all_threegrams_spec (g : WordGrid) :
  covers g →
  ∃ allgrams, get_all_threegrams g = Ok allgrams
    ∧ ∀ t, t ∈ allgrams ↔
        ∃ r c n1 n2 e0 e1 e2,
          is_valid_index g r c = true ∧ two_step_path g r c n1 n2 e0 e1 e2
          ∧ t = (e0 +:+ e1) +:+ e2.
Proof. apply get_all_threegrams_paths. Qed.

Lemma get_all_threegrams_spec_witness :
  ∃ allgrams, get_all_threegrams grid_abcd = Ok allgrams
    ∧ ∀ t, t ∈ allgrams ↔
        ∃ r c n1 n2 e0 e1 e2,
          is_valid_index grid_abcd r c = true
          ∧ two_step_path grid_abcd r c n1 n2 e0 e1 e2
          ∧ t = (e0 +:+ e1) +:+ e2.
Proof.
  apply (get_all_threegrams_spec grid_abcd).
  split; [simpl; lia|]. repeat constructor; simpl; lia.
Defined.

(** X20: the trigram set of a fully constructed grid is closed under
    reversal: a path read backwards is again a path that does not step
    back, so with "abc" the set holds "cba". *)
Theorem get_all_threegrams_reverse (g : WordGrid) (allgrams : gset string)
    (a b c : ascii) :
  fully_constructed g → get_all_threegrams g = Ok allgrams →
  String a (String b (String c EmptyString)) ∈ allgrams →
  String c (String b (String a EmptyString)) ∈ allgrams.
Proof.
  intros Hfc Hall Ht.
  destruct (get_all_threegrams_paths g (fully_constructed_covers g Hfc))
    as (allgrams' & Hall' & Hchar).
  rewrite Hall in Hall'. injection Hall' as <-.
  apply Hchar in Ht
    as (r & c0 & n1 & n2 & e0 & e1 & e2 & Hv & (Hn1 & Hn2 & Hne & He0 & He1 & He2) & Ht).
  pose proof (neighbour_valid g _ _ _ Hn1) as Hv1.
  pose proof (neighbour_valid g _ _ _ Hn2) as Hv2.
  destruct (get_element_letter g r c0 Hfc Hv) as [a0 Ha0].
  destruct (get_element_letter g n1.1 n1.2 Hfc Hv1) as [a1 Ha1].
  destruct (get_element_letter g n2.1 n2.2 Hfc Hv2) as [a2 Ha2].
  rewrite He0 in Ha0. rewrite He1 in Ha1. rewrite He2 in Ha2. simplify_eq.
  simpl in Ht. injection Ht as -> -> ->.
  apply Hchar.
  exists n2.1, n2.2, n1, (r, c0), (String a2 EmptyString), (String a1 EmptyString),
    (String a0 EmptyString).
  split; [done|]. split; [|done].
  apply elem_of_get_neighbours_index in Hn1 as [_ Hd1].
  apply elem_of_get_neighbours_index in Hn2 as [_ Hd2].
  destruct n1 as [r1 c1], n2 as [r2 c2]. unfold chebyshev in *. simpl in *.
  split; [apply elem_of_get_neighbours_index; unfold chebyshev; simpl; split; [done|lia]|].
  split; [apply elem_of_get_neighbours_index; unfold chebyshev; simpl; split; [done|lia]|].
  split; [|done]. intros [= -> ->]. by apply Hne.
Qed.

Lemma get_all_threegrams_reverse_witness :
  ∃ allgrams, get_all_threegrams grid_abcd = Ok allgrams
              ∧ "cba"%string ∈ allgrams.
Proof.
  assert (fully_constructed grid_abcd) as Hfc
    by (apply (bool_decide_unpack _); vm_compute; reflexivity).
  destruct (get_all_threegrams_paths grid_abcd (fully_constructed_covers _ Hfc))
    as (allgrams & Hall & Hchar).
  exists allgrams. split; [exact Hall|].
  apply (get_all_threegrams_reverse grid_abcd allgrams "a" "b" "c" Hfc Hall).
  apply Hchar. exists 0, 0, (0, 1), (1, 0), "a"%string, "b"%string, "c"%string.
  split; [reflexivity|]. split; [|reflexivity].
  split; [apply (bool_decide_unpack _); vm_compute; reflexivity|].
  split; [apply (bool_decide_unpack _); vm_compute; reflexivity|].
  split; [discriminate|]. split; [reflexivity|]. split; reflexivity.
Defined.

(** ** Exceptions of the pipeline *)






(** ** The filter as a whole *)

Lemma lstrip_head s :
  lstrip s = EmptyString ∨ ∃ a t, lstrip s = String a t ∧ py_isspace a = false.
Proof.
  induction s as [|a s IH]; [by left|]. simpl.
  destruct (py_isspace a) eqn:E; [done|]. right. by exists a, s.
Qed.

Lemma rstrip_head a t :
  py_isspace a = false → ∃ r, rstrip (String a t) = String a r.
Proof.
  intros Ha. simpl. destruct (rstrip t) as [|b r].
  - rewrite Ha. by eexists.
  - by eexists.
Qed.

Lemma rstrip_rstrip s : rstrip (rstrip s) = rstrip s.
Proof.
  induction s as [|a s IH]; [done|]. simpl.
  destruct (rstrip s) as [|b r] eqn:E.
  - destruct (py_isspace a) eqn:Ha; [done|]. simpl. by rewrite Ha.
  - cbn [rstrip] in *. by rewrite IH.
Qed.

(** Stripping a stripped string changes nothing. *)
Lemma strip_strip s : strip (strip s) = strip s.
Proof.
  unfold strip. destruct (lstrip_head s) as [->|(a & t & -> & Ha)]; [done|].
  destruct (rstrip_head a t Ha) as [r Hr]. rewrite Hr. simpl lstrip. rewrite Ha.
  rewrite <- Hr. apply rstrip_rstrip.
Qed.

(** X22: the filtering pass works line by line and settles at once:
    filtering two lists one after the other gives the two results one after
    the other, and filtering its own output again returns it unchanged. *)
Theorem filter_lines_app_idempotent
    (lettercount : gmap string Z) (threegrams : gset string) (fin1 fin2 : list string) :
  filter_lines lettercount threegrams (fin1 ++ fin2)
  = filter_lines lettercount threegrams fin1 ++ filter_lines lettercount threegrams fin2
  ∧ filter_lines lettercount threegrams (filter_lines lettercount threegrams fin1)
    = filter_lines lettercount threegrams fin1.
Proof.
  rewrite !filter_lines_filter. split.
  - by rewrite fmap_app, filter_app.
  - induction fin1 as [|line fin IH]; [done|].
    rewrite fmap_cons, filter_cons. case_decide as Hc; [|exact IH].
    rewrite fmap_cons, strip_strip, filter_cons, decide_True by done.
    by rewrite IH.
Qed.

Lemma occ_Permutation k l1 l2 : l1 ≡ₚ l2 → occ k l1 = occ k l2.
Proof. intros H. unfold occ. by rewrite H. Qed.

(** A list whose every element occurs at most as often as in another list
    is no longer than that list. *)
Lemma occ_le_length l1 l2 :
  (∀ k, occ k l1 ≤ occ k l2) → (length l1 ≤ length l2)%nat.
Proof.
  revert l2. induction l1 as [|x l1 IH]; intros l2 H; [simpl; lia|].
  assert (0 < occ x (x :: l1)) as Hpos
    by (apply occ_pos, elem_of_cons; by left).
  assert (x ∈ l2) as Hx by (apply occ_pos; specialize (H x); lia).
  apply elem_of_Permutation in Hx as [l2' Hl2].
  rewrite (Permutation_length Hl2). simpl. apply le_n_S, IH. intros k.
  specialize (H k).
  rewrite (occ_Permutation k _ _ Hl2), (occ_cons k x l1), (occ_cons k x l2') in H. lia.
Qed.

Lemma fits_budget_Counter word l :
  fits_budget word (Counter l) ↔ ∀ k, occ k (chars word) ≤ occ k l.
Proof.
  unfold fits_budget. split.
  - intros H k. destruct (decide (k ∈ chars word)) as [Hin|Hin].
    + destruct (H k Hin) as (b & Hb & Hle). rewrite Counter_lookup in Hb.
      case_decide; [|done]. by injection Hb as <-.
    + pose proof (occ_nonneg k (chars word)). pose proof (occ_nonneg k l).
      destruct (decide (0 < occ k (chars word))) as [Hpos|Hpos]; [|lia].
      exfalso. by apply Hin, occ_pos.
  - intros H letter Hin. exists (occ letter l). split; [|apply H].
    rewrite Counter_lookup, decide_True; [done|].
    apply occ_pos. apply occ_pos in Hin. specialize (H letter). lia.
Qed.

Lemma length_concat_shape (a : ndarray) nr nc :
  shape a nr nc → length (concat a) = (nr * nc)%nat.
Proof.
  intros [<- Hl]. induction Hl as [|line a Hline Hl IH]; [done|].
  simpl. rewrite length_app, IH, Hline. lia.
Qed.

(** X23: a word the filter suggests is made of letters of the grid, each
    used no more often than the grid holds it; so it is never longer than
    the array has cells (and always longer than three characters). *)
Theorem filter_lines_word_fits
    (g : WordGrid) (nr nc : nat) (threegrams : gset string) (fin : list string)
    (word : string) :
  shape (grid g) nr nc → word ∈ filter_lines (lettercount g) threegrams fin →
  3 < len word ≤ Z.of_nat (nr * nc)
  ∧ ∀ letter, occ letter (chars word) ≤ occ letter (flatten (grid g)).
Proof.
  intros Hs Hin. rewrite filter_lines_filter in Hin.
  apply list_elem_of_filter in Hin as [(Hlen & Hfit & _) _].
  unfold lettercount in Hfit.
  pose proof (proj1 (fits_budget_Counter _ _) Hfit) as Hocc.
  split; [|done]. split; [lia|].
  pose proof (occ_le_length _ _ Hocc) as Hle. unfold flatten in Hle.
  rewrite (length_concat_shape _ nr nc Hs), length_chars in Hle.
  unfold len. lia.
Qed.

Lemma filter_lines_word_fits_witness :
  3 < len "abcd" ≤ Z.of_nat (2 * 2)
  ∧ ∀ letter, occ letter (chars "abcd") ≤ occ letter (flatten (grid grid_abcd)).
Proof.
  apply (filter_lines_word_fits grid_abcd 2 2
           (list_to_set ["abc"; "bcd"]%string) [" abcd "; "abc"]%string "abcd").
  - apply (bool_decide_unpack _). vm_compute. reflexivity.
  - apply (bool_decide_unpack _). vm_compute. reflexivity.
Defined.

Lemma fits_budget_mono word B B' :
  budget_le B B' → fits_budget word B → fits_budget word B'.
Proof.
  intros Hle Hfit letter Hin. destruct (Hfit letter Hin) as (b & Hb & Hocc).
  assert (0 < occ letter (chars word)) as Hpos by (by apply occ_pos).
  specialize (Hle letter). unfold count_of in Hle. rewrite Hb in Hle. simpl in Hle.
  destruct (B' !! letter) as [b'|]; simpl in Hle; [|lia].
  exists b'. split; [done|lia].
Qed.

Lemma sublist_filter_impl {A} (P Q : A → Prop)
    `{!∀ x, Decision (P x)} `{!∀ x, Decision (Q x)} (l : list A) :
  (∀ x, P x → Q x) → sublist (filter P l) (filter Q l).
Proof.
  intros Himpl. induction l as [|x l IH]; [done|]. rewrite !filter_cons.
  destruct (decide (P x)) as [HP|HP].
  - rewrite decide_True by auto. by apply sublist_skip.
  - destruct (decide (Q x)); [by apply sublist_cons|done].
Qed.

(** X24: more letters and more trigrams never lose a word: with a
    pointwise larger budget and a larger trigram set the filter keeps every
    word it kept before, in the same order. *)
Theorem filter_lines_mono
    (B B' : gmap string Z) (S S' : gset string) (fin : list string) :
  budget_le B B' → S ⊆ S' →
  sublist (filter_lines B S fin) (filter_lines B' S' fin).
Proof.
  intros HB HS. rewrite !filter_lines_filter. apply sublist_filter_impl.
  intros word (Hlen & Hfit & Hgrams). split; [done|]. split.
  - by eapply fits_budget_mono.
  - intros i Hi. apply HS, Hgrams, Hi.
Qed.

Lemma filter_lines_mono_witness :
  sublist (filter_lines (Counter ["a"; "b"; "c"; "d"]%string)
             (list_to_set ["abc"; "bcd"]%string) ["abcd"; "abca"]%string)
          (filter_lines (<["a"%string := 2]> (Counter ["a"; "b"; "c"; "d"]%string))
             (list_to_set ["abc"; "bcd"; "bca"]%string) ["abcd"; "abca"]%string).
Proof.
  apply filter_lines_mono.
  - intros k. unfold count_of. destruct (decide (k = "a"%string)) as [->|Hne].
    + vm_compute. discriminate.
    + rewrite lookup_insert_ne by done. lia.
  - apply (bool_decide_unpack _). vm_compute. reflexivity.
Defined.

(** X25: the letter check looks at the letters of a word only, not at
    their order: two words that are anagrams of each other get the same
    answer under every budget, and a word always passes the budget counted
    from its own letters. *)
Theorem check_lettercount_in_word_anagram (w1 w2 : string) (B : gmap string Z) :
  chars w1 ≡ₚ chars w2 →
  check_lettercount_in_word w1 B = check_lettercount_in_word w2 B
  ∧ check_lettercount_in_word w1 (Counter (chars w2)) = true.
Proof.
  intros Hp.
  assert (∀ u v C, chars u ≡ₚ chars v → fits_budget u C → fits_budget v C) as Hperm.
  { intros u v C Huv Hfit letter Hin. rewrite <- Huv in Hin.
    destruct (Hfit letter Hin) as (b & Hb & Hle). exists b. split; [done|].
    by rewrite <- (occ_Permutation letter _ _ Huv). }
  split.
  - destruct (check_lettercount_in_word w1 B) eqn:E1;
      destruct (check_lettercount_in_word w2 B) eqn:E2; try done.
    + apply check_lettercount_in_word_spec in E1.
      apply (Hperm w1 w2 B Hp), check_lettercount_in_word_spec in E1. congruence.
    + apply check_lettercount_in_word_spec in E2.
      apply (Hperm w2 w1 B (symmetry Hp)), check_lettercount_in_word_spec in E2.
      congruence.
  - apply check_lettercount_in_word_spec, fits_budget_Counter. intros k.
    rewrite (occ_Permutation k _ _ Hp). lia.
Qed.

Lemma check_lettercount_in_word_anagram_witness :
  check_lettercount_in_word "listen" (Counter (chars "enlists"))
  = check_lettercount_in_word "silent" (Counter (chars "enlists"))
  ∧ check_lettercount_in_word "listen" (Counter (chars "silent")) = true.
Proof.
  apply (check_lettercount_in_word_anagram "listen" "silent").
  apply (bool_decide_unpack _). vm_compute. reflexivity.
Defined.

(** ** The budget as a whole *)

Lemma budget_total_insert_fresh (m : gmap string Z) k v :
  m !! k = None → budget_total (<[k := v]> m) = v + budget_total m.
Proof.
  intros Hk. unfold budget_total. apply map_fold_insert_L; [|done].
  intros j1 j2 z1 z2 y _ _ _. lia.
Qed.

Lemma budget_total_step (m : gmap string Z) x :
  budget_total (<[x := default 0 (m !! x) + 1]> m) = budget_total m + 1.
Proof.
  destruct (m !! x) as [v|] eqn:Hx; simpl.
  - rewrite <- (insert_delete_eq m x (v + 1)).
    rewrite budget_total_insert_fresh by apply lookup_delete_eq.
    rewrite <- (insert_delete_id m x v Hx) at 2.
    rewrite budget_total_insert_fresh by apply lookup_delete_eq. lia.
  - rewrite budget_total_insert_fresh by done. lia.
Qed.

Lemma budget_total_foldl (m : gmap string Z) l :
  budget_total (foldl (λ m x, <[x := default 0 (m !! x) + 1]> m) m l)
  = budget_total m + Z.of_nat (length l).
Proof.
  revert m. induction l as [|x l IH]; intros m; simpl; [lia|].
  rewrite IH, budget_total_step. lia.
Qed.

(** X26: the counts of [lettercount] add up to the number of cells of the
    array: every cell is counted exactly once, whatever it holds. *)
Theorem lettercount_total (g : WordGrid) (nr nc : nat) :
  shape (grid g) nr nc → budget_total (lettercount g) = Z.of_nat (nr * nc).
Proof.
  intros Hs. unfold lettercount, Counter, flatten.
  rewrite budget_total_foldl, (length_concat_shape _ nr nc Hs).
  unfold budget_total. rewrite map_fold_empty. lia.
Qed.

Lemma lettercount_total_witness :
  budget_total (lettercount grid_abcd) = Z.of_nat (2 * 2).
Proof.
  apply (lettercount_total grid_abcd 2 2).
  apply (bool_decide_unpack _). vm_compute. reflexivity.
Defined.

(** ** A grid without trigrams *)

(** X27: against an empty set the n-gram check passes only the words
    shorter than [n]; so when the grid yields no trigram at all the filter
    suggests nothing, whatever the budget and the word list. *)
Theorem check_ngrams_in_word_empty_set
    (word : string) (n : Z) (lettercount : gmap string Z) (fin : list string) :
  (check_ngrams_in_word word ∅ n = true ↔ len word < n)
  ∧ filter_lines lettercount ∅ fin = [].
Proof.
  assert (∀ w m, check_ngrams_in_word w ∅ m = true ↔ len w < m) as Hchk.
  { intros w m. rewrite check_ngrams_in_word_spec. unfold ngrams_within. split.
    - intros H. destruct (decide (len w < m)) as [|Hge]; [done|].
      exfalso. apply (not_elem_of_empty (C:=gset string) (py_slice w 0 (0 + m))).
      apply H. lia.
    - intros Hlt i Hi. lia. }
  split; [apply Hchk|].
  rewrite filter_lines_filter. induction (strip <$> fin) as [|w l IH]; [done|].
  rewrite filter_cons, decide_False; [exact IH|].
  intros (Hlen & _ & Hgrams). apply check_ngrams_in_word_spec, Hchk in Hgrams. lia.
Qed.
